(** * ChatWave: the Socket.io chat server of [server.js]

    A shallow embedding of the connection handler of [server.js] (the HTTPS
    variant of the server registers the very same handlers), and proofs about
    the session registry [connectedUsers], the name directory
    [takenUsernames] and the events the handlers emit.

    - The two module-level globals of the server are the record [State].
    - Every [socket.on(...)] callback is a function from the state to the new
      state and the list of effects it performs, in program order.
    - Socket.io itself is the record [Server] (the set of connected sockets
      next to the globals), the transition function [step] and the delivery
      function [inbox].
    - The arguments of [user-join] and [chat-message] are strings, as the
      client of [app.js] sends them; [Date.now()] and the ISO timestamp of a
      message are inputs of the event.
    - Of the client, [app.js], the file has the login form, the message box
      with its typing timer, and the avatar colour; of the HTTPS variant of
      the server, the loading and saving of the certificate. *)

From Stdlib Require Import Ascii.
From stdpp Require Import gmap strings list pretty.

(** ** JavaScript strings *)

(** [String.prototype.trim] and [String.prototype.toLowerCase] are built-ins
    of the runtime, driven by the Unicode tables.  The handlers are embedded
    over any pair of functions; [Latin1] below gives the instance the
    examples are evaluated with. *)
Class JSString := {
  trim : string → string;
  toLowerCase : string → string
}.

Module Latin1.
(** Strings whose code units are below 256: there ECMAScript's WhiteSpace
    and LineTerminator code points are TAB, LF, VT, FF, CR, SP and NBSP,
    and the cased letters are A-Z and U+00C0-U+00DE without U+00D7. *)
Definition isWhiteSpace (c : ascii) : bool :=
  let n := N_of_ascii c in
  ((9 <=? n) && (n <=? 13) || (n =? 32) || (n =? 160))%N.

Fixpoint trimStart (s : string) : string :=
  match s with
  | String c s' => if isWhiteSpace c then trimStart s' else s
  | EmptyString => EmptyString
  end.

Definition trimEnd (s : string) : string :=
  String.rev (trimStart (String.rev s)).

Definition trim (s : string) : string := trimEnd (trimStart s).

Definition lowerChar (c : ascii) : ascii :=
  let n := N_of_ascii c in
  if ((65 <=? n) && (n <=? 90)
      || (192 <=? n) && (n <=? 222) && negb (n =? 215))%N
  then ascii_of_N (n + 32) else c.

Fixpoint toLowerCase (s : string) : string :=
  match s with
  | String c s' => String (lowerChar c) (toLowerCase s')
  | EmptyString => EmptyString
  end.
End Latin1.

Definition latin1 : JSString :=
  {| trim := Latin1.trim; toLowerCase := Latin1.toLowerCase |}.

(** ** The built-in collections *)

(** A JavaScript [Map] from strings to strings: the entries in insertion
    order, [set] on a present key replaces the value where it stands. *)
Module JSMap.
Abbreviation t := (list (string * string)) (only parsing).

Definition empty : t := [].

Fixpoint get (k : string) (m : t) : option string :=
  match m with
  | [] => None
  | (k', v) :: m' => if decide (k = k') then Some v else get k m'
  end.

Fixpoint set (k v : string) (m : t) : t :=
  match m with
  | [] => [(k, v)]
  | (k', v') :: m' =>
      if decide (k = k') then (k, v) :: m' else (k', v') :: set k v m'
  end.

Fixpoint delete (k : string) (m : t) : t :=
  match m with
  | [] => []
  | (k', v') :: m' =>
      if decide (k = k') then delete k m' else (k', v') :: delete k m'
  end.

Definition size (m : t) : nat := length m.
Definition keys (m : t) : list string := m.*1.
Definition values (m : t) : list string := m.*2.
End JSMap.

(** A JavaScript [Set] of strings.  The server only adds, deletes and asks
    whether some element satisfies a test, so the iteration order is not
    observable and a finite set is enough. *)
Module JSSet.
Definition add (x : string) (s : gset string) : gset string := {[x]} ∪ s.
Definition delete (x : string) (s : gset string) : gset string := s ∖ {[x]}.
(** [Array.from(s).some(p)] *)
Definition some (p : string → bool) (s : gset string) : bool :=
  existsb p (elements s).
End JSSet.


(** ** The server's globals, events and effects *)

Abbreviation SocketId := string (only parsing).

(** [connectedUsers] (key: socket.id, value: username) and [takenUsernames]. *)
Record State := {
  connectedUsers : JSMap.t;
  takenUsernames : gset string
}.

(** What an event carries: a string, the object of the presence events
    [user-joined] and [user-left], or the object of [new-message]. *)
Inductive Payload :=
| PString (s : string)
| PPresence (username : string) (userCount : nat) (users : list string)
| PMessage (id username message timestamp : string).

(** The calls a handler makes on [socket], [io] and [console]. *)
Inductive Effect :=
| SocketEmit (sid : SocketId) (event : string) (payload : Payload)
| SocketBroadcastEmit (sid : SocketId) (event : string) (payload : Payload)
| IoEmit (event : string) (payload : Payload)
| ConsoleLog (line : string).

(** A value read from the map as a condition: [undefined] and the empty
    string are falsy, any other string is truthy. *)
Definition truthy (v : option string) : option string :=
  match v with
  | Some s => if decide (s = "") then None else Some s
  | None => None
  end.

Section Handlers.
Context `{JSString}.

(** [name.toLowerCase() === lowerUsername] under [some] over the set. *)
Definition isTaken (lowerUsername : string) (taken : gset string) : bool :=
  JSSet.some (λ name, bool_decide (toLowerCase name = lowerUsername)) taken.

(** [socket.on("user-join", (username) => ...)] *)
Definition on_user_join (sid : SocketId) (username : string) (σ : State)
  : State * list Effect :=
  let trimmedUsername := trim username in
  if decide (trimmedUsername = "") then
    (σ, [SocketEmit sid "join-error" (PString "Username cannot be empty")])
  else
    let lowerUsername := toLowerCase trimmedUsername in
    if isTaken lowerUsername (takenUsernames σ) then
      (σ, [SocketEmit sid "join-error"
             (PString "Username is already taken. Please choose another.")])
    else
      let users := JSMap.set sid trimmedUsername (connectedUsers σ) in
      let taken := JSSet.add trimmedUsername (takenUsernames σ) in
      ({| connectedUsers := users; takenUsernames := taken |},
       [SocketEmit sid "join-success" (PString trimmedUsername);
        IoEmit "user-joined"
          (PPresence trimmedUsername (JSMap.size users) (JSMap.values users));
        ConsoleLog ("[JOIN] " +:+ trimmedUsername
                    +:+ " joined the chat. Total users: "
                    +:+ pretty (JSMap.size users))]).

(** [socket.on("chat-message", (message) => ...)]; [now] is the value of
    [Date.now()] and [iso] that of [new Date().toISOString()]. *)
Definition on_chat_message (sid : SocketId) (message : string)
    (now : Z) (iso : string) (σ : State) : State * list Effect :=
  match truthy (JSMap.get sid (connectedUsers σ)) with
  | None => (σ, [SocketEmit sid "error" (PString "You must join the chat first")])
  | Some username =>
      let trimmedMessage := trim message in
      if decide (trimmedMessage = "") then (σ, [])
      else
        let messageData :=
          PMessage (pretty now +:+ "-" +:+ sid) username trimmedMessage iso in
        let truncatedMsg :=
          if decide (50 < String.length trimmedMessage)
          then String.substring 0 50 trimmedMessage +:+ "..."
          else trimmedMessage in
        (σ, [IoEmit "new-message" messageData;
             ConsoleLog ("[MESSAGE] " +:+ username +:+ ": " +:+ truncatedMsg)])
  end.

(** [socket.on("typing", () => ...)] *)
Definition on_typing (sid : SocketId) (σ : State) : State * list Effect :=
  match truthy (JSMap.get sid (connectedUsers σ)) with
  | Some username => (σ, [SocketBroadcastEmit sid "user-typing" (PString username)])
  | None => (σ, [])
  end.

(** [socket.on("stop-typing", () => ...)] *)
Definition on_stop_typing (sid : SocketId) (σ : State) : State * list Effect :=
  match truthy (JSMap.get sid (connectedUsers σ)) with
  | Some username =>
      (σ, [SocketBroadcastEmit sid "user-stop-typing" (PString username)])
  | None => (σ, [])
  end.

(** [socket.on("disconnect", () => ...)] *)
Definition on_disconnect (sid : SocketId) (σ : State) : State * list Effect :=
  match truthy (JSMap.get sid (connectedUsers σ)) with
  | Some username =>
      let users := JSMap.delete sid (connectedUsers σ) in
      let taken := JSSet.delete username (takenUsernames σ) in
      ({| connectedUsers := users; takenUsernames := taken |},
       [IoEmit "user-left"
          (PPresence username (JSMap.size users) (JSMap.values users));
        ConsoleLog ("[DISCONNECT] " +:+ username
                    +:+ " left the chat. Total users: "
                    +:+ pretty (JSMap.size users))])
  | None =>
      (σ, [ConsoleLog ("[DISCONNECT] Unregistered client disconnected: " +:+ sid)])
  end.

End Handlers.

(** ** Socket.io around the handlers *)

(** The library's side of the process: the sockets of the namespace that are
    connected, next to the globals of the script. *)
Record Server := {
  sockets : gset SocketId;
  globals : State
}.

Definition init : Server :=
  {| sockets := ∅;
     globals := {| connectedUsers := JSMap.empty; takenUsernames := ∅ |} |}.

(** What the event loop hands to the script, one callback at a time. *)
Inductive Event :=
| Connection (sid : SocketId)
| UserJoin (sid : SocketId) (username : string)
| ChatMessage (sid : SocketId) (message : string) (now : Z) (iso : string)
| Typing (sid : SocketId)
| StopTyping (sid : SocketId)
| Disconnect (sid : SocketId).

Definition socket (e : Event) : SocketId :=
  match e with
  | Connection sid | UserJoin sid _ | ChatMessage sid _ _ _
  | Typing sid | StopTyping sid | Disconnect sid => sid
  end.

Section Dispatch.
Context `{JSString}.

(** The callback an event runs.  [io.on("connection", ...)] logs and
    installs the other five on the new socket. *)
Definition handle (e : Event) (σ : State) : State * list Effect :=
  match e with
  | Connection sid =>
      (σ, [ConsoleLog ("[CONNECTION] New client connected: " +:+ sid)])
  | UserJoin sid username => on_user_join sid username σ
  | ChatMessage sid message now iso => on_chat_message sid message now iso σ
  | Typing sid => on_typing sid σ
  | StopTyping sid => on_stop_typing sid σ
  | Disconnect sid => on_disconnect sid σ
  end.

(** The sockets connected while the callback of [e] runs: a socket is in the
    namespace from its connection on, and has left it by the time its
    [disconnect] callback is called. *)
Definition sockets_during (e : Event) (conn : gset SocketId) : gset SocketId :=
  match e with
  | Connection sid => {[sid]} ∪ conn
  | Disconnect sid => conn ∖ {[sid]}
  | _ => conn
  end.

(** An id is given to one connection at a time, and only a connected socket
    has events. *)
Definition enabled (e : Event) (conn : gset SocketId) : bool :=
  match e with
  | Connection sid => bool_decide (sid ∉ conn)
  | _ => bool_decide (socket e ∈ conn)
  end.

Definition step (e : Event) (s : Server) : option (Server * list Effect) :=
  if enabled e (sockets s) then
    let '(σ, out) := handle e (globals s) in
    Some ({| sockets := sockets_during e (sockets s); globals := σ |}, out)
  else None.

(** A run of the server: the state it ends in, when every event was enabled. *)
Fixpoint exec (tr : list Event) (s : Server) : option Server :=
  match tr with
  | [] => Some s
  | e :: tr' =>
      match step e s with
      | Some (s', _) => exec tr' s'
      | None => None
      end
  end.

Definition reachable (s : Server) : Prop := ∃ tr, exec tr init = Some s.

End Dispatch.

(** ** Delivery *)

Definition Packet : Type := string * Payload.

(** The packet an effect puts on the wire for socket [r]: [socket.emit]
    writes to the socket itself, [socket.broadcast.emit] to every socket but
    itself, [io.emit] to every socket. *)
Definition addressed (r : SocketId) (eff : Effect) : option Packet :=
  match eff with
  | SocketEmit sid event payload =>
      if decide (r = sid) then Some (event, payload) else None
  | SocketBroadcastEmit sid event payload =>
      if decide (r = sid) then None else Some (event, payload)
  | IoEmit event payload => Some (event, payload)
  | ConsoleLog _ => None
  end.

(** What socket [r] receives from the effects [out] of one callback, [conn]
    being the connected sockets: nothing reaches a socket that is not
    connected. *)
Definition inbox (conn : gset SocketId) (out : list Effect) (r : SocketId)
  : list Packet :=
  if decide (r ∈ conn) then omap (addressed r) out else [].

(** The effects that reach more than the socket they are called on. *)
Definition is_broadcast (eff : Effect) : bool :=
  match eff with
  | SocketBroadcastEmit _ _ _ | IoEmit _ _ => true
  | SocketEmit _ _ _ | ConsoleLog _ => false
  end.

(** The name a [disconnect] callback announces as gone, read off its
    effects: the [username] of the [user-left] event, if it emits one. *)
Definition departed (out : list Effect) : option string :=
  match out with
  | IoEmit "user-left" (PPresence username _ _) :: _ => Some username
  | _ => None
  end.

(** ** Properties of states *)

(** The directory holds exactly the names the registry maps to. *)
Definition directory_consistent (σ : State) : Prop :=
  takenUsernames σ = list_to_set (JSMap.values (connectedUsers σ)).

(** A name that is taken although no socket holds it. *)
Definition orphaned (name : string) (σ : State) : Prop :=
  name ∈ takenUsernames σ ∧
  ∀ sid, JSMap.get sid (connectedUsers σ) ≠ Some name.

(** The precondition the protocol puts on a join request: the socket has no
    entry in the registry yet. *)
Definition join_is_first (e : Event) (σ : State) : Prop :=
  match e with
  | UserJoin sid _ => JSMap.get sid (connectedUsers σ) = None
  | _ => True
  end.

Section Invariants.
Context `{JSString}.

(** What every state of a run satisfies. *)
Record consistent (s : Server) : Prop := {
  keys_nodup : NoDup (JSMap.keys (connectedUsers (globals s)));
  keys_connected : ∀ sid name,
    JSMap.get sid (connectedUsers (globals s)) = Some name → sid ∈ sockets s;
  names_nonempty : ∀ sid name,
    JSMap.get sid (connectedUsers (globals s)) = Some name → name ≠ "";
  names_taken : ∀ sid name,
    JSMap.get sid (connectedUsers (globals s)) = Some name →
    name ∈ takenUsernames (globals s);
  names_distinct : ∀ sid1 sid2 name1 name2,
    sid1 ≠ sid2 →
    JSMap.get sid1 (connectedUsers (globals s)) = Some name1 →
    JSMap.get sid2 (connectedUsers (globals s)) = Some name2 →
    toLowerCase name1 ≠ toLowerCase name2
}.

(** Runs in which no socket sends a join request while it is registered. *)
Fixpoint joins_first (tr : list Event) (s : Server) : Prop :=
  match tr with
  | [] => True
  | e :: tr' =>
      join_is_first e (globals s) ∧
      match step e s with
      | Some (s', _) => joins_first tr' s'
      | None => True
      end
  end.

End Invariants.

(** ** Sample runs *)

(** Two clients connect; the first joins as alice, the second is refused
    Alice and joins as bob. *)
Definition two_users : list Event :=
  [Connection "A"; Connection "B"; UserJoin "A" " alice ";
   UserJoin "B" "Alice"; UserJoin "B" "bob"].

Definition alice_and_bob : Server :=
  {| sockets := {["A"; "B"]};
     globals := {| connectedUsers := [("A", "alice"); ("B", "bob")];
                   takenUsernames := {["alice"; "bob"]} |} |}.

(** A third client connects and does not join. *)
Definition with_guest : Server :=
  {| sockets := {["A"; "B"; "C"]};
     globals := globals alice_and_bob |}.

(** One client joins as alice and then, on the same socket, as bob. *)
Definition rejoin : list Event :=
  [Connection "A"; UserJoin "A" "alice"; UserJoin "A" "bob"].

Definition only_alice : Server :=
  {| sockets := {["A"]};
     globals := {| connectedUsers := [("A", "alice")];
                   takenUsernames := {["alice"]} |} |}.

(** ** More properties of states *)

(** No two names of the directory are equal up to case. *)
Definition directory_distinct `{JSString} (σ : State) : Prop :=
  ∀ name1 name2,
    name1 ∈ takenUsernames σ → name2 ∈ takenUsernames σ →
    toLowerCase name1 = toLowerCase name2 → name1 = name2.

(** A string without the character [-]. *)
Fixpoint dashless (s : string) : bool :=
  match s with
  | EmptyString => true
  | String c s' => negb (Ascii.eqb c "-") && dashless s'
  end.

(** ** The client: [app.js] *)

(** [socket.emit(event)] and [socket.emit(event, arg)] on the client's socket. *)
Inductive ClientEmit :=
| Emit (event : string) (arg : option string).

(** *** The login form *)

(** What [handleLogin] reads and writes: the value of the username input,
    the text of the error line, and the join button (whether it is disabled,
    and the text of its label).  Giving the focus to an input is left out. *)
Record LoginForm := {
  usernameInput : string;
  loginError : string;
  joinDisabled : bool;
  joinLabel : string
}.

(** [showLoginError(message)] *)
Definition showLoginError (message : string) (f : LoginForm) : LoginForm :=
  {| usernameInput := usernameInput f;
     loginError := message;
     joinDisabled := joinDisabled f;
     joinLabel := joinLabel f |}.

(** [handleLogin(e)], the listener of the form's [submit] event. *)
Definition handleLogin `{JSString} (f : LoginForm) : LoginForm * list ClientEmit :=
  let username := trim (usernameInput f) in
  if decide (username = "") then
    (showLoginError "Please enter a username" f, [])
  else if decide (String.length username < 2) then
    (showLoginError "Username must be at least 2 characters" f, [])
  else if decide (20 < String.length username) then
    (showLoginError "Username must be 20 characters or less" f, [])
  else
    ({| usernameInput := usernameInput f;
        loginError := loginError f;
        joinDisabled := true;
        joinLabel := "Joining..." |},
     [Emit "user-join" (Some username)]).

(** *** The message box and the typing indicator *)

(** The value of the message input, [state.isTyping], [state.typingTimeout]
    ([null] or the id [setTimeout] returned last), and the window's side of
    the timers: the ids that are set and have neither fired nor been
    cleared, and the id the next [setTimeout] returns.  No other code of the
    client writes to [state.isTyping] or [state.typingTimeout], and
    [handleTyping] has the only [setTimeout]. *)
Record Composer := {
  messageInput : string;
  isTyping : bool;
  typingTimeout : option nat;
  timers : gset nat;
  nextTimer : nat
}.

Definition composer_init : Composer :=
  {| messageInput := "";
     isTyping := false;
     typingTimeout := None;
     timers := ∅;
     nextTimer := 1 |}.

(** [if (state.typingTimeout) clearTimeout(state.typingTimeout)]: [null] and
    0 are falsy. *)
Definition clearTypingTimeout (c : Composer) : gset nat :=
  match typingTimeout c with
  | Some id => if decide (id = 0) then timers c else timers c ∖ {[id]}
  | None => timers c
  end.

(** [handleTyping()], the listener of the message input's [input] event. *)
Definition handleTyping (c : Composer) : Composer * list ClientEmit :=
  let out := if isTyping c then [] else [Emit "typing" None] in
  ({| messageInput := messageInput c;
      isTyping := true;
      typingTimeout := Some (nextTimer c);
      timers := {[nextTimer c]} ∪ clearTypingTimeout c;
      nextTimer := S (nextTimer c) |},
   out).

(** The callback [handleTyping] hands to [setTimeout]. *)
Definition typingTimedOut (c : Composer) : Composer * list ClientEmit :=
  ({| messageInput := messageInput c;
      isTyping := false;
      typingTimeout := typingTimeout c;
      timers := timers c;
      nextTimer := nextTimer c |},
   [Emit "stop-typing" None]).

(** [handleSendMessage(e)], the listener of the message form's [submit]. *)
Definition handleSendMessage `{JSString} (c : Composer)
  : Composer * list ClientEmit :=
  let message := trim (messageInput c) in
  if decide (message = "") then (c, [])
  else
    ({| messageInput := "";
        isTyping := false;
        typingTimeout := typingTimeout c;
        timers := timers c;
        nextTimer := nextTimer c |},
     Emit "chat-message" (Some message)
       :: (if isTyping c then [Emit "stop-typing" None] else [])).

(** What happens to the message box: the user edits the text (the browser
    stores the new value and calls the [input] listener), the form is
    submitted, or a timer that is set fires (the window forgets it and calls
    its callback). *)
Inductive ComposerEvent :=
| Input (value : string)
| Submit
| Timeout (id : nat).

Definition composer_step `{JSString} (e : ComposerEvent) (c : Composer)
  : option (Composer * list ClientEmit) :=
  match e with
  | Input value =>
      Some (handleTyping {| messageInput := value;
                            isTyping := isTyping c;
                            typingTimeout := typingTimeout c;
                            timers := timers c;
                            nextTimer := nextTimer c |})
  | Submit => Some (handleSendMessage c)
  | Timeout id =>
      if decide (id ∈ timers c) then
        Some (typingTimedOut {| messageInput := messageInput c;
                                isTyping := isTyping c;
                                typingTimeout := typingTimeout c;
                                timers := timers c ∖ {[id]};
                                nextTimer := nextTimer c |})
      else None
  end.

(** A run of the message box, with everything it emitted, in order. *)
Fixpoint composer_run `{JSString} (tr : list ComposerEvent) (c : Composer)
  : option (Composer * list ClientEmit) :=
  match tr with
  | [] => Some (c, [])
  | e :: tr' =>
      match composer_step e c with
      | Some (c1, out1) =>
          match composer_run tr' c1 with
          | Some (c2, out2) => Some (c2, out1 ++ out2)
          | None => None
          end
      | None => None
      end
  end.

(** Reading a sequence of emissions for the typing indicator: [typing] may
    only come when the indicator is off, and turns it on; [stop-typing]
    turns it off. *)
Fixpoint typing_alternates (on : bool) (out : list ClientEmit) : bool :=
  match out with
  | [] => true
  | Emit event _ :: rest =>
      if decide (event = "typing") then negb on && typing_alternates true rest
      else if decide (event = "stop-typing") then typing_alternates false rest
      else typing_alternates on rest
  end.

Fixpoint typing_after (on : bool) (out : list ClientEmit) : bool :=
  match out with
  | [] => on
  | Emit event _ :: rest =>
      if decide (event = "typing") then typing_after true rest
      else if decide (event = "stop-typing") then typing_after false rest
      else typing_after on rest
  end.

(** *** Avatar colours *)

(** [hash << 5]: the operand is taken to a signed 32-bit integer, shifted,
    and the result is a signed 32-bit integer again. *)
Definition toInt32 (z : Z) : Z := ((z + 2 ^ 31) `mod` 2 ^ 32 - 2 ^ 31)%Z.
Definition shl5 (hash : Z) : Z := toInt32 (hash * 32).

(** One turn of the loop of [getUserColor]:
    [hash = username.charCodeAt(i) + ((hash << 5) - hash)]. *)
Definition hashStep (hash charCode : Z) : Z := (charCode + (shl5 hash - hash))%Z.

(** The loop, over the code units of the username. *)
Definition userHash (codes : list Z) : Z := fold_left hashStep codes 0%Z.

(** [Math.abs(hash % 360)]; [%] takes the sign of the dividend. *)
Definition userHue (codes : list Z) : Z := Z.abs (Z.rem (userHash codes) 360).

(** The code units of a string of the Latin-1 block. *)
Definition charCodes (s : string) : list Z :=
  (λ c, Z.of_N (N_of_ascii c)) <$> String.list_ascii_of_string s.

(** [getUserColor(username)] *)
Definition getUserColor (username : string) : string :=
  "hsl(" +:+ pretty (userHue (charCodes username)) +:+ ", 70%, 60%)".

(** The timers of the message box: only the one [state.typingTimeout]
    names can be set, and it is set whenever [state.isTyping] holds. *)
Record timers_ok (c : Composer) : Prop := {
  timer_is_last : ∀ id, id ∈ timers c → typingTimeout c = Some id;
  timer_is_positive : ∀ id, typingTimeout c = Some id → 0 < id;
  next_is_positive : 0 < nextTimer c;
  typing_has_timer : isTyping c = true →
                     ∃ id, typingTimeout c = Some id ∧ id ∈ timers c
}.

(** ** The certificates of the HTTPS server *)

(** The HTTPS variant of the server loads its certificate and key from the
    directory [certs] beside the script, or makes and saves them.  Paths are
    lists of names below [__dirname]; the disk maps a path to a regular file
    with its content or to a directory, and [__dirname] itself, the empty
    path, is a directory. *)
Inductive Entry :=
| File (content : string)
| Directory.

Record World := {
  disk : gmap (list string) Entry;
  console : list string
}.

(** A call returns a value and a world, or throws an error of [fs]. *)
Inductive Outcome (A : Type) :=
| Return (a : A) (w : World)
| Throw (code : string).
Arguments Return {A} a w.
Arguments Throw {A} code.

Definition Sync (A : Type) : Type := World → Outcome A.

#[global] Instance Sync_ret : MRet Sync := λ A a w, Return a w.
#[global] Instance Sync_bind : MBind Sync := λ A B k m w,
  match m w with
  | Return a w' => k a w'
  | Throw code => Throw code
  end.

(** [path.join(dir, name)] *)
Definition path_join (dir : list string) (name : string) : list string :=
  dir ++ [name].

Definition CERT_DIR : list string := path_join [] "certs".
Definition CERT_PATH : list string := path_join CERT_DIR "cert.pem".
Definition KEY_PATH : list string := path_join CERT_DIR "key.pem".

Definition dirname (p : list string) : list string := take (pred (length p)) p.

(** What is at a path: [__dirname] is a directory. *)
Definition stat (d : gmap (list string) Entry) (p : list string) : option Entry :=
  match p with
  | [] => Some Directory
  | _ => d !! p
  end.

(** A disk is a tree: what holds an entry is a directory. *)
Definition tree (d : gmap (list string) Entry) : Prop :=
  ∀ p, is_Some (d !! p) → stat d (dirname p) = Some Directory.

Definition console_log (line : string) : Sync () := λ w,
  Return () {| disk := disk w; console := console w ++ [line] |}.

(** [fs.existsSync(p)] *)
Definition existsSync (p : list string) : Sync bool := λ w,
  Return (bool_decide (is_Some (stat (disk w) p))) w.

(** [fs.mkdirSync(p, { recursive: true })]: the directories on the way to
    [p] that are missing are made, from [__dirname] down; a directory that
    is there is left alone, a regular file in the way is an error. *)
Fixpoint mkdirp (made todo : list string) (d : gmap (list string) Entry)
  : gmap (list string) Entry + string :=
  match todo with
  | [] => inl d
  | name :: rest =>
      let p := path_join made name in
      match d !! p with
      | None => mkdirp p rest (<[p := Directory]> d)
      | Some Directory => mkdirp p rest d
      | Some (File _) => inr (match rest with [] => "EEXIST" | _ => "ENOTDIR" end)
      end
  end.

Definition mkdirSync (p : list string) : Sync () := λ w,
  match mkdirp [] p (disk w) with
  | inl d => Return () {| disk := d; console := console w |}
  | inr code => Throw code
  end.

(** [fs.readFileSync(p, "utf8")] *)
Definition readFileSync (p : list string) : Sync string := λ w,
  match stat (disk w) p with
  | Some (File content) => Return content w
  | Some Directory => Throw "EISDIR"
  | None => Throw "ENOENT"
  end.

(** [fs.writeFileSync(p, content)]: creates the file or replaces its
    content, in a directory that exists. *)
Definition writeFileSync (p : list string) (content : string) : Sync () := λ w,
  match stat (disk w) (dirname p) with
  | Some Directory =>
      match stat (disk w) p with
      | Some Directory => Throw "EISDIR"
      | _ => Return () {| disk := <[p := File content]> (disk w);
                          console := console w |}
      end
  | Some (File _) => Throw "ENOTDIR"
  | None => Throw "ENOENT"
  end.

Record Credentials := {
  cert : string;
  key : string
}.

(** [generateCertificate()]: the key pair, the certificate and their PEM
    forms are made by node-forge; the pair it returns is given as [pems]. *)
Definition generateCertificate (pems : Credentials) : Sync Credentials :=
  console_log "🔐 Generating new self-signed SSL certificates...";;
  mret pems.

(** [getSSLCredentials()] *)
Definition getSSLCredentials (pems : Credentials) : Sync Credentials :=
  dirExists ← existsSync CERT_DIR;
  (if negb dirExists then mkdirSync CERT_DIR else mret ());;
  certExists ← existsSync CERT_PATH;
  keyExists ← (if certExists then existsSync KEY_PATH else mret false);
  if certExists && keyExists then
    console_log "📜 Loading existing SSL certificates...";;
    cert ← readFileSync CERT_PATH;
    key ← readFileSync KEY_PATH;
    mret {| cert := cert; key := key |}
  else
    generated ← generateCertificate pems;
    writeFileSync CERT_PATH (cert generated);;
    writeFileSync KEY_PATH (key generated);;
    console_log "✅ SSL certificates generated and saved to ./certs/";;
    mret generated.

(** Project the fields of a state that is written out, and nothing else. *)
Ltac project_state :=
  cbn [connectedUsers takenUsernames globals sockets fst snd];
  unfold JSSet.add, JSSet.delete.

(** ** Facts about the collections *)

Lemma JSMap_get_set (k : string) (v : string) (m : list (string * string)) (k' : string) :
  JSMap.get k' (JSMap.set k v m) = if decide (k' = k) then Some v else JSMap.get k' m.
Proof.
  induction m as [|[k0 v0] m IH]; simpl.
  - destruct (decide (k' = k)); reflexivity.
  - destruct (decide (k = k0)) as [->|Hk]; simpl.
    + destruct (decide (k' = k0)); reflexivity.
    + rewrite IH. destruct (decide (k' = k0)) as [->|]; [|reflexivity].
      destruct (decide (k0 = k)); congruence.
Qed.

Lemma JSMap_get_delete (k : string) (m : list (string * string)) (k' : string) :
  JSMap.get k' (JSMap.delete k m) = if decide (k' = k) then None else JSMap.get k' m.
Proof.
  induction m as [|[k0 v0] m IH]; simpl.
  - destruct (decide (k' = k)); reflexivity.
  - destruct (decide (k = k0)) as [->|Hk]; simpl.
    + rewrite IH. destruct (decide (k' = k0)); reflexivity.
    + rewrite IH. destruct (decide (k' = k0)) as [->|]; [|reflexivity].
      destruct (decide (k0 = k)); congruence.
Qed.

Lemma JSMap_get_None (k : string) (m : list (string * string)) : JSMap.get k m = None ↔ k ∉ JSMap.keys m.
Proof.
  unfold JSMap.keys. induction m as [|[k0 v0] m IH]; simpl.
  - split; [intros _; apply not_elem_of_nil | reflexivity].
  - rewrite not_elem_of_cons. destruct (decide (k = k0)) as [->|Hk].
    + split; [discriminate | intros [? _]; congruence].
    + rewrite IH. tauto.
Qed.

Lemma JSMap_get_elem (k : string) (v : string) (m : list (string * string)) : JSMap.get k m = Some v → (k, v) ∈ m.
Proof.
  induction m as [|[k0 v0] m IH]; simpl; [discriminate|].
  destruct (decide (k = k0)) as [->|Hk].
  - intros [= ->]. apply list_elem_of_here.
  - intros Hg. apply list_elem_of_further, IH, Hg.
Qed.

Lemma JSMap_elem_get (k : string) (v : string) (m : list (string * string)) :
  NoDup (JSMap.keys m) → (k, v) ∈ m → JSMap.get k m = Some v.
Proof.
  unfold JSMap.keys. induction m as [|[k0 v0] m IH]; simpl.
  - intros _ Hin. inversion Hin.
  - rewrite NoDup_cons. intros [Hfresh Hnd] Hin.
    apply elem_of_cons in Hin as [[= -> ->]|Hin].
    + rewrite decide_True; reflexivity.
    + rewrite decide_False; [auto|].
      intros ->. apply Hfresh. apply list_elem_of_fmap. exists (k0, v). auto.
Qed.

Lemma JSMap_get_value (k : string) (v : string) (m : list (string * string)) : JSMap.get k m = Some v → v ∈ JSMap.values m.
Proof.
  intros Hg. apply list_elem_of_fmap. exists (k, v). split; [reflexivity|].
  apply JSMap_get_elem, Hg.
Qed.

Lemma JSMap_value_get (v : string) (m : list (string * string)) :
  NoDup (JSMap.keys m) → v ∈ JSMap.values m → ∃ k, JSMap.get k m = Some v.
Proof.
  intros Hnd Hin. apply list_elem_of_fmap in Hin as [[k v'] [-> Hin]].
  exists k. apply JSMap_elem_get; assumption.
Qed.

Lemma JSMap_set_fresh (k : string) (v : string) (m : list (string * string)) :
  JSMap.get k m = None → JSMap.set k v m = m ++ [(k, v)].
Proof.
  induction m as [|[k0 v0] m IH]; simpl; [reflexivity|].
  destruct (decide (k = k0)); [discriminate|]. intros Hg. rewrite IH; auto.
Qed.

Lemma JSMap_keys_set_present (k : string) (v : string) (m : list (string * string)) :
  JSMap.get k m ≠ None → JSMap.keys (JSMap.set k v m) = JSMap.keys m.
Proof.
  unfold JSMap.keys. induction m as [|[k0 v0] m IH]; simpl; [congruence|].
  destruct (decide (k = k0)) as [->|]; [reflexivity|].
  intros Hg. rewrite fmap_cons, IH; auto.
Qed.

Lemma JSMap_NoDup_set (k : string) (v : string) (m : list (string * string)) :
  NoDup (JSMap.keys m) → NoDup (JSMap.keys (JSMap.set k v m)).
Proof.
  intros Hnd. destruct (JSMap.get k m) as [v0|] eqn:Hg.
  - rewrite JSMap_keys_set_present; [assumption | congruence].
  - rewrite JSMap_set_fresh by assumption. unfold JSMap.keys in *.
    rewrite fmap_app. simpl. apply NoDup_app. split; [assumption|].
    split; [|apply NoDup_singleton].
    intros x Hx ->%list_elem_of_singleton.
    revert Hx. apply JSMap_get_None, Hg.
Qed.

Lemma JSMap_keys_delete (k : string) (m : list (string * string)) :
  JSMap.keys (JSMap.delete k m) = filter (λ k', k' ≠ k) (JSMap.keys m).
Proof.
  unfold JSMap.keys. induction m as [|[k0 v0] m IH]; [reflexivity|].
  rewrite fmap_cons. cbn [JSMap.delete fst].
  destruct (decide (k = k0)) as [->|Hk].
  - rewrite filter_cons_False by auto. assumption.
  - rewrite filter_cons_True by congruence. by rewrite fmap_cons, IH.
Qed.

Lemma JSMap_NoDup_delete (k : string) (m : list (string * string)) :
  NoDup (JSMap.keys m) → NoDup (JSMap.keys (JSMap.delete k m)).
Proof. intros Hnd. rewrite JSMap_keys_delete. by apply NoDup_filter. Qed.

Lemma JSMap_delete_absent (k : string) (m : list (string * string)) : JSMap.get k m = None → JSMap.delete k m = m.
Proof.
  induction m as [|[k0 v0] m IH]; simpl; [reflexivity|].
  destruct (decide (k = k0)); [discriminate|]. intros Hg. by rewrite IH.
Qed.

Lemma JSMap_size_delete (k : string) (m : list (string * string)) :
  NoDup (JSMap.keys m) → JSMap.get k m ≠ None →
  S (JSMap.size (JSMap.delete k m)) = JSMap.size m.
Proof.
  unfold JSMap.keys, JSMap.size. induction m as [|[k0 v0] m IH]; simpl; [congruence|].
  rewrite NoDup_cons. intros [Hfresh Hnd].
  destruct (decide (k = k0)) as [->|Hk]; simpl.
  - intros _. rewrite JSMap_delete_absent; [reflexivity|].
    by apply JSMap_get_None.
  - intros Hg. by rewrite IH.
Qed.

Lemma JSMap_size_set_fresh (k : string) (v : string) (m : list (string * string)) :
  JSMap.get k m = None → JSMap.size (JSMap.set k v m) = S (JSMap.size m).
Proof.
  intros Hg. rewrite JSMap_set_fresh by assumption.
  unfold JSMap.size. rewrite length_app. simpl. lia.
Qed.

(** ** Facts about the handlers *)

Lemma truthy_Some (v : option string) (name : string) :
  truthy v = Some name ↔ v = Some name ∧ name ≠ "".
Proof.
  destruct v as [s|]; simpl; [|split; [discriminate | intros [? _]; discriminate]].
  destruct (decide (s = "")) as [->|Hs].
  - split; [discriminate | intros [[= <-] ?]; congruence].
  - split; [intros [= <-]; auto | intros [[= <-] _]; reflexivity].
Qed.

Lemma truthy_None (v : option string) : v = None → truthy v = None.
Proof. intros ->. reflexivity. Qed.

Section HandlerFacts.
Context `{JSString}.

Lemma isTaken_true (lowerUsername : string) (taken : gset string) :
  isTaken lowerUsername taken = true ↔
  ∃ name, name ∈ taken ∧ toLowerCase name = lowerUsername.
Proof.
  unfold isTaken, JSSet.some. rewrite existsb_exists. split.
  - intros (name & Hin & Heq). exists name. split.
    + by apply elem_of_elements, list_elem_of_In.
    + by apply bool_decide_eq_true in Heq.
  - intros (name & Hin & Heq). exists name. split.
    + by apply list_elem_of_In, elem_of_elements.
    + by apply bool_decide_eq_true.
Qed.

Lemma isTaken_false (lowerUsername : string) (taken : gset string) :
  isTaken lowerUsername taken = false ↔
  ∀ name, name ∈ taken → toLowerCase name ≠ lowerUsername.
Proof.
  rewrite <- not_true_iff_false, isTaken_true. split.
  - intros Hno name Hin Heq. apply Hno. eauto.
  - intros Hall (name & Hin & Heq). by apply (Hall name).
Qed.

(** The three ways a join request ends. *)
Lemma on_user_join_empty (sid username : string) (σ : State) :
  trim username = "" →
  on_user_join sid username σ =
    (σ, [SocketEmit sid "join-error" (PString "Username cannot be empty")]).
Proof. intros He. unfold on_user_join. by rewrite decide_True. Qed.

Lemma on_user_join_taken (sid username : string) (σ : State) :
  trim username ≠ "" →
  isTaken (toLowerCase (trim username)) (takenUsernames σ) = true →
  on_user_join sid username σ =
    (σ, [SocketEmit sid "join-error"
           (PString "Username is already taken. Please choose another.")]).
Proof.
  intros Hne Ht. unfold on_user_join. rewrite decide_False by done. by rewrite Ht.
Qed.

Lemma on_user_join_accepted (sid username : string) (σ : State) :
  trim username ≠ "" →
  isTaken (toLowerCase (trim username)) (takenUsernames σ) = false →
  on_user_join sid username σ =
    ({| connectedUsers := JSMap.set sid (trim username) (connectedUsers σ);
        takenUsernames := JSSet.add (trim username) (takenUsernames σ) |},
     [SocketEmit sid "join-success" (PString (trim username));
      IoEmit "user-joined"
        (PPresence (trim username)
           (JSMap.size (JSMap.set sid (trim username) (connectedUsers σ)))
           (JSMap.values (JSMap.set sid (trim username) (connectedUsers σ))));
      ConsoleLog ("[JOIN] " +:+ trim username
                  +:+ " joined the chat. Total users: "
                  +:+ pretty (JSMap.size
                                (JSMap.set sid (trim username) (connectedUsers σ))))]).
Proof.
  intros Hne Ht. unfold on_user_join. rewrite decide_False by done. by rewrite Ht.
Qed.

(** A step is the callback of an enabled event. *)
Lemma step_Some (e : Event) (s s' : Server) (out : list Effect) :
  step e s = Some (s', out) ↔
  enabled e (sockets s) = true ∧
  s' = {| sockets := sockets_during e (sockets s);
          globals := (handle e (globals s)).1 |} ∧
  out = (handle e (globals s)).2.
Proof.
  unfold step. destruct (enabled e (sockets s)).
  - destruct (handle e (globals s)) as [σ o]. simpl. split.
    + intros [= <- <-]. auto.
    + intros (_ & -> & ->). reflexivity.
  - split; [discriminate | intros [? _]; discriminate].
Qed.

Lemma exec_app (tr1 tr2 : list Event) (s : Server) :
  exec (tr1 ++ tr2) s = exec tr1 s ≫= exec tr2.
Proof.
  revert s. induction tr1 as [|e tr1 IH]; intros s; simpl; [reflexivity|].
  destruct (step e s) as [[s' out]|]; [apply IH | reflexivity].
Qed.

(** A property kept by every step holds at the end of every run. *)
Lemma exec_invariant (P : Server → Prop) :
  (∀ e s s' out, P s → step e s = Some (s', out) → P s') →
  ∀ tr s s', P s → exec tr s = Some s' → P s'.
Proof.
  intros Hstep tr. induction tr as [|e tr IH]; intros s s' HP; simpl.
  - by intros [= <-].
  - destruct (step e s) as [[s1 out]|] eqn:Hs; [|discriminate].
    apply IH. eapply Hstep; eauto.
Qed.

Lemma reachable_exec (tr : list Event) (s s' : Server) :
  reachable s → exec tr s = Some s' → reachable s'.
Proof.
  intros [tr0 H0] Htr. exists (tr0 ++ tr). rewrite exec_app, H0. exact Htr.
Qed.

Lemma reachable_step (e : Event) (s s' : Server) (out : list Effect) :
  reachable s → step e s = Some (s', out) → reachable s'.
Proof.
  intros Hr Hs. apply (reachable_exec [e] s); [assumption|].
  simpl. by rewrite Hs.
Qed.

End HandlerFacts.

(** ** The invariant of the runs *)

Section InvariantFacts.
Context `{JSString}.

Lemma consistent_init : consistent init.
Proof.
  split; simpl; try discriminate.
  apply NoDup_nil_2.
Qed.

(** Only [user-join] and [disconnect] write to the globals. *)
Lemma handle_reads_only (e : Event) (σ : State) :
  (∀ sid username, e ≠ UserJoin sid username) →
  (∀ sid, e ≠ Disconnect sid) →
  (handle e σ).1 = σ.
Proof.
  intros Hj Hd. destruct e as [sid|sid u|sid m now iso|sid|sid|sid]; simpl.
  - reflexivity.
  - by destruct (Hj sid u).
  - unfold on_chat_message.
    destruct (truthy _); [destruct (decide _)|]; reflexivity.
  - unfold on_typing. destruct (truthy _); reflexivity.
  - unfold on_stop_typing. destruct (truthy _); reflexivity.
  - by destruct (Hd sid).
Qed.

Lemma consistent_join (s : Server) (sid username : string) :
  consistent s → sid ∈ sockets s →
  consistent {| sockets := sockets s;
                globals := (on_user_join sid username (globals s)).1 |}.
Proof.
  intros Hc Hin.
  destruct (decide (trim username = "")) as [He|Hne].
  { rewrite on_user_join_empty by done. by destruct s. }
  destruct (isTaken (toLowerCase (trim username)) (takenUsernames (globals s)))
    eqn:Ht.
  { rewrite on_user_join_taken by done. by destruct s. }
  rewrite on_user_join_accepted by done.
  pose proof (proj1 (isTaken_false _ _) Ht) as Hfree.
  destruct Hc as [Hnd Hconn Hnonempty Htaken Hdist].
  split; simpl.
  - by apply JSMap_NoDup_set.
  - intros k v. rewrite JSMap_get_set.
    destruct (decide (k = sid)) as [->|]; eauto.
  - intros k v. rewrite JSMap_get_set.
    destruct (decide (k = sid)) as [->|]; [intros [= <-]; done | eauto].
  - intros k v. rewrite JSMap_get_set. unfold JSSet.add.
    destruct (decide (k = sid)) as [->|]; [intros [= <-]; set_solver|].
    intros Hg. apply elem_of_union_r. eauto.
  - intros k1 k2 v1 v2 Hk. rewrite !JSMap_get_set.
    destruct (decide (k1 = sid)) as [->|]; destruct (decide (k2 = sid)) as [->|];
      try done.
    + intros [= <-] Hg Heq. by apply (Hfree v2); eauto.
    + intros Hg [= <-]. apply Hfree. eauto.
    + eauto.
Qed.

Lemma consistent_disconnect (s : Server) (sid : string) :
  consistent s →
  consistent {| sockets := sockets s ∖ {[sid]};
                globals := (on_disconnect sid (globals s)).1 |}.
Proof.
  intros [Hnd Hconn Hnonempty Htaken Hdist]. unfold on_disconnect.
  destruct (truthy _) as [u|] eqn:Hu.
  - apply truthy_Some in Hu as [Hu Hune]. split; simpl.
    + by apply JSMap_NoDup_delete.
    + intros k v. rewrite JSMap_get_delete.
      destruct (decide (k = sid)); [done|]. intros Hg.
      apply elem_of_difference. split; [eauto | set_solver].
    + intros k v. rewrite JSMap_get_delete.
      destruct (decide (k = sid)); [done | eauto].
    + intros k v. rewrite JSMap_get_delete. unfold JSSet.delete.
      destruct (decide (k = sid)); [done|]. intros Hg.
      apply elem_of_difference. split; [eauto|].
      intros Heq%elem_of_singleton. subst. by eapply (Hdist k sid); eauto.
    + intros k1 k2 v1 v2 Hk. rewrite !JSMap_get_delete.
      destruct (decide (k1 = sid)); [done|].
      destruct (decide (k2 = sid)); [done | eauto].
  - split; simpl; eauto.
    intros k v Hg. apply elem_of_difference. split; [eauto|].
    intros ->%elem_of_singleton.
    assert (truthy (JSMap.get sid (connectedUsers (globals s))) = Some v)
      by (apply truthy_Some; eauto).
    congruence.
Qed.

Lemma consistent_step (e : Event) (s s' : Server) (out : list Effect) :
  consistent s → step e s = Some (s', out) → consistent s'.
Proof.
  intros Hc (Hen & -> & _)%step_Some.
  destruct e as [sid|sid u|sid m now iso|sid|sid|sid];
    try (rewrite handle_reads_only by done; simpl; by destruct s).
  - rewrite handle_reads_only by done. simpl.
    destruct Hc as [Hnd Hconn Hnonempty Htaken Hdist].
    split; simpl; eauto.
    intros k v Hg. apply elem_of_union_r. eauto.
  - apply bool_decide_eq_true in Hen. by apply consistent_join.
  - by apply consistent_disconnect.
Qed.

Lemma reachable_consistent (s : Server) : reachable s → consistent s.
Proof.
  intros [tr Htr]. revert Htr. apply exec_invariant; [|apply consistent_init].
  intros e s1 s2 out. apply consistent_step.
Qed.

(** On a state of a run, a registry entry is a truthy value. *)
Lemma truthy_registered (s : Server) (sid name : string) :
  consistent s →
  JSMap.get sid (connectedUsers (globals s)) = Some name →
  truthy (JSMap.get sid (connectedUsers (globals s))) = Some name.
Proof. intros Hc Hg. apply truthy_Some. split; [done|]. eapply names_nonempty; eauto. Qed.

End InvariantFacts.

(** ** Delivery of one emission *)

Lemma inbox_nil (conn : gset string) (r : string) : inbox conn [] r = [].
Proof. unfold inbox. by destruct (decide (r ∈ conn)). Qed.

Lemma inbox_disconnected (conn : gset string) (out : list Effect) (r : string) :
  r ∉ conn → inbox conn out r = [].
Proof. intros Hr. unfold inbox. by rewrite decide_False. Qed.

Lemma inbox_console (conn : gset string) (line : string) (out : list Effect) (r : string) :
  inbox conn (ConsoleLog line :: out) r = inbox conn out r.
Proof. unfold inbox. by destruct (decide (r ∈ conn)). Qed.

Lemma inbox_socket_emit_self (conn : gset string) (sid event : string) (p : Payload) :
  sid ∈ conn → inbox conn [SocketEmit sid event p] sid = [(event, p)].
Proof.
  intros Hin. unfold inbox. rewrite decide_True by done. simpl.
  rewrite decide_True by done. reflexivity.
Qed.

Lemma inbox_socket_emit_other (conn : gset string) (sid event : string) (p : Payload)
    (r : string) :
  r ≠ sid → inbox conn [SocketEmit sid event p] r = [].
Proof.
  intros Hne. unfold inbox. destruct (decide (r ∈ conn)); [|done]. simpl.
  rewrite decide_False by done. reflexivity.
Qed.

Lemma inbox_io_emit (conn : gset string) (event : string) (p : Payload)
    (out : list Effect) (r : string) :
  r ∈ conn → inbox conn (IoEmit event p :: out) r = (event, p) :: inbox conn out r.
Proof. intros Hin. unfold inbox. rewrite !decide_True by done. reflexivity. Qed.

Lemma inbox_broadcast_self (conn : gset string) (sid event : string) (p : Payload) :
  inbox conn [SocketBroadcastEmit sid event p] sid = [].
Proof.
  unfold inbox. destruct (decide (sid ∈ conn)); [|done]. simpl.
  rewrite decide_True by done. reflexivity.
Qed.

Lemma inbox_broadcast_other (conn : gset string) (sid event : string) (p : Payload)
    (r : string) :
  r ∈ conn → r ≠ sid → inbox conn [SocketBroadcastEmit sid event p] r = [(event, p)].
Proof.
  intros Hin Hne. unfold inbox. rewrite decide_True by done. simpl.
  rewrite decide_False by done. reflexivity.
Qed.

(** ** The sample runs *)

Example two_users_run : @exec latin1 two_users init = Some alice_and_bob.
Proof. vm_compute. reflexivity. Qed.

Example alice_and_bob_reachable : @reachable latin1 alice_and_bob.
Proof. exists two_users. vm_compute. reflexivity. Qed.

Example with_guest_reachable : @reachable latin1 with_guest.
Proof. exists (two_users ++ [Connection "C"]). vm_compute. reflexivity. Qed.

Example only_alice_reachable : @reachable latin1 only_alice.
Proof. exists [Connection "A"; UserJoin "A" "alice"]. vm_compute. reflexivity. Qed.

(** The second client's first request, in the state it was made in. *)
Example Alice_is_refused :
  @step latin1 (UserJoin "B" "Alice")
    {| sockets := {["A"; "B"]}; globals := globals only_alice |}
  = Some ({| sockets := {["A"; "B"]}; globals := globals only_alice |},
          [SocketEmit "B" "join-error"
             (PString "Username is already taken. Please choose another.")]).
Proof. vm_compute. reflexivity. Qed.

(** The presence events of the two joins carry 1, [alice] and 2, [alice; bob]. *)
Example presence_of_two_joins :
  (@on_user_join latin1 "A" " alice " (globals init)).2 !! 1%nat
    = Some (IoEmit "user-joined" (PPresence "alice" 1 ["alice"])) ∧
  (@on_user_join latin1 "B" "bob" (globals only_alice)).2 !! 1%nat
    = Some (IoEmit "user-joined" (PPresence "bob" 2 ["alice"; "bob"])).
Proof. split; vm_compute; reflexivity. Qed.

(** ** The claims *)

(** C2. In every state of a run, two distinct sockets that both have an
    entry in the registry hold names whose lower-cased forms differ. *)
Theorem registered_names_differ `{JSString} (s : Server)
    (sid1 sid2 name1 name2 : string) :
  reachable s →
  sid1 ≠ sid2 →
  JSMap.get sid1 (connectedUsers (globals s)) = Some name1 →
  JSMap.get sid2 (connectedUsers (globals s)) = Some name2 →
  toLowerCase name1 ≠ toLowerCase name2.
Proof.
  intros Hr%reachable_consistent. apply (names_distinct s Hr).
Qed.

Lemma registered_names_differ_witness :
  @reachable latin1 alice_and_bob ∧
  @toLowerCase latin1 "alice" ≠ @toLowerCase latin1 "bob".
Proof.
  assert (Hr : @reachable latin1 alice_and_bob).
  { exists two_users. vm_compute. reflexivity. }
  split; [exact Hr|].
  apply (@registered_names_differ latin1 alice_and_bob "A" "B" "alice" "bob" Hr).
  - discriminate.
  - reflexivity.
  - reflexivity.
Defined.

(** C3. A join request is decided on the trimmed name.  When it is empty the
    request is refused with the empty-name error; otherwise, when a name of
    the directory has the same lower-cased form, it is refused with the
    name-taken error; otherwise the socket's registry entry becomes the
    trimmed name, the trimmed name is added to the directory, and the socket
    is sent [join-success] with exactly the trimmed name, once, before the
    presence event goes out. *)
Theorem join_outcomes `{JSString} (sid username : string) (σ : State) :
  (trim username = "" →
   on_user_join sid username σ =
     (σ, [SocketEmit sid "join-error" (PString "Username cannot be empty")]))
  ∧
  (trim username ≠ "" →
   (∃ name, name ∈ takenUsernames σ ∧
            toLowerCase name = toLowerCase (trim username)) →
   on_user_join sid username σ =
     (σ, [SocketEmit sid "join-error"
            (PString "Username is already taken. Please choose another.")]))
  ∧
  (trim username ≠ "" →
   (∀ name, name ∈ takenUsernames σ →
            toLowerCase name ≠ toLowerCase (trim username)) →
   ∃ σ' line,
     on_user_join sid username σ =
       (σ', [SocketEmit sid "join-success" (PString (trim username));
             IoEmit "user-joined"
               (PPresence (trim username)
                  (JSMap.size (connectedUsers σ'))
                  (JSMap.values (connectedUsers σ')));
             ConsoleLog line]) ∧
     JSMap.get sid (connectedUsers σ') = Some (trim username) ∧
     (∀ other, other ≠ sid →
        JSMap.get other (connectedUsers σ') = JSMap.get other (connectedUsers σ)) ∧
     takenUsernames σ' = {[trim username]} ∪ takenUsernames σ ∧
     (∀ conn, sid ∈ conn →
        inbox conn (on_user_join sid username σ).2 sid =
          [("join-success", PString (trim username));
           ("user-joined",
            PPresence (trim username)
              (JSMap.size (connectedUsers σ'))
              (JSMap.values (connectedUsers σ')))])).
Proof.
  split; [apply on_user_join_empty|]. split.
  - intros Hne Ht. apply on_user_join_taken; [done|]. by apply isTaken_true.
  - intros Hne Hfree. apply isTaken_false in Hfree.
    rewrite on_user_join_accepted by done.
    eexists {| connectedUsers := JSMap.set sid (trim username) (connectedUsers σ);
               takenUsernames := JSSet.add (trim username) (takenUsernames σ) |}, _.
    split; [reflexivity|]. simpl.
    split; [by rewrite JSMap_get_set, decide_True|].
    split; [intros other Ho; by rewrite JSMap_get_set, decide_False|].
    split; [reflexivity|].
    intros conn Hin. unfold inbox. rewrite decide_True by done. simpl.
    by rewrite decide_True.
Qed.

Lemma join_outcomes_witness :
  @on_user_join latin1 "A" "   " (globals alice_and_bob) =
    (globals alice_and_bob,
     [SocketEmit "A" "join-error" (PString "Username cannot be empty")]) ∧
  @on_user_join latin1 "C" " BOB" (globals alice_and_bob) =
    (globals alice_and_bob,
     [SocketEmit "C" "join-error"
        (PString "Username is already taken. Please choose another.")]) ∧
  JSMap.get "C" (connectedUsers (@on_user_join latin1 "C" " carol " (globals alice_and_bob)).1)
    = Some "carol".
Proof.
  destruct (@join_outcomes latin1 "A" "   " (globals alice_and_bob)) as (Hempty & _ & _).
  destruct (@join_outcomes latin1 "C" " BOB" (globals alice_and_bob)) as (_ & Htaken & _).
  destruct (@join_outcomes latin1 "C" " carol " (globals alice_and_bob)) as (_ & _ & Hok).
  split; [apply Hempty; reflexivity|].
  split.
  - apply Htaken; [discriminate|]. exists "bob". split; [|reflexivity].
    simpl. compute_done.
  - destruct Hok as (σ' & line & Heq & Hget & _); [discriminate| |].
    + intros name Hin.
      apply elem_of_elements in Hin. vm_compute in Hin.
      apply elem_of_cons in Hin as [->|Hin]; [discriminate|].
      apply elem_of_cons in Hin as [->|Hin]; [discriminate|].
      inversion Hin.
    + rewrite Heq. exact Hget.
Defined.

(** C4. Whatever the state, a join request that is refused, for an empty
    trimmed name or for a name that is taken up to case, leaves the registry
    and the directory as they were; its only effect is one [join-error] sent
    to the requesting socket, no other socket receives anything. *)
Theorem rejected_join_is_silent `{JSString} (sid username : string) (σ : State) :
  (trim username = "" ∨
   ∃ name, name ∈ takenUsernames σ ∧
           toLowerCase name = toLowerCase (trim username)) →
  ∃ reason,
    on_user_join sid username σ =
      (σ, [SocketEmit sid "join-error" (PString reason)]) ∧
    existsb is_broadcast (on_user_join sid username σ).2 = false ∧
    (∀ conn, sid ∈ conn →
       inbox conn (on_user_join sid username σ).2 sid
         = [("join-error", PString reason)]) ∧
    (∀ conn other, other ≠ sid →
       inbox conn (on_user_join sid username σ).2 other = []).
Proof.
  intros Hrej.
  assert (∃ reason, on_user_join sid username σ =
            (σ, [SocketEmit sid "join-error" (PString reason)])) as [reason Heq].
  { destruct (decide (trim username = "")) as [He|Hne].
    - eexists. by apply on_user_join_empty.
    - destruct Hrej as [He|Ht]; [done|].
      eexists. apply on_user_join_taken; [done|]. by apply isTaken_true. }
  exists reason. rewrite Heq. simpl.
  split; [reflexivity|]. split; [reflexivity|]. split.
  - intros conn Hin. by apply inbox_socket_emit_self.
  - intros conn other Hne. by apply inbox_socket_emit_other.
Qed.

Lemma rejected_join_is_silent_witness :
  ∃ reason,
    @on_user_join latin1 "C" " ALICE " (globals alice_and_bob) =
      (globals alice_and_bob, [SocketEmit "C" "join-error" (PString reason)]).
Proof.
  destruct (@rejected_join_is_silent latin1 "C" " ALICE " (globals alice_and_bob))
    as (reason & Heq & _).
  - right. exists "alice". split; [|reflexivity].
    simpl. compute_done.
  - exists reason. exact Heq.
Defined.

Lemma server_eta (s : Server) :
  {| sockets := sockets s; globals := globals s |} = s.
Proof. by destruct s. Qed.

(** A step of an event that leaves the globals and the sockets alone. *)
Lemma step_same_state `{JSString} (e : Event) (s : Server) (out : list Effect) :
  enabled e (sockets s) = true →
  sockets_during e (sockets s) = sockets s →
  handle e (globals s) = (globals s, out) →
  step e s = Some (s, out).
Proof.
  intros Hen Hconn Hh. apply step_Some. rewrite Hh, Hconn. simpl.
  by rewrite server_eta.
Qed.

(** C5, as the code has it.  A chat message from a connected socket without
    a registry entry changes nothing and is answered with one [error] event
    to that socket alone; a [typing] or [stop-typing] event from such a
    socket changes nothing and has no effect at all: no error is sent.  In
    both cases the socket stays connected. *)
Theorem unauthenticated_events `{JSString} (s : Server) (sid : string) :
  sid ∈ sockets s →
  JSMap.get sid (connectedUsers (globals s)) = None →
  (∀ message now iso,
     ∃ out,
       step (ChatMessage sid message now iso) s = Some (s, out) ∧
       out = [SocketEmit sid "error" (PString "You must join the chat first")] ∧
       existsb is_broadcast out = false ∧
       inbox (sockets s) out sid
         = [("error", PString "You must join the chat first")] ∧
       ∀ other, other ≠ sid → inbox (sockets s) out other = [])
  ∧ step (Typing sid) s = Some (s, [])
  ∧ step (StopTyping sid) s = Some (s, []).
Proof.
  intros Hin Hg. split; [|split].
  - intros message now iso. eexists. split; [|split; [reflexivity|]].
    + apply step_same_state; [by apply bool_decide_eq_true | done |].
      simpl. unfold on_chat_message. by rewrite Hg.
    + split; [reflexivity|]. split.
      * by apply inbox_socket_emit_self.
      * intros other Hne. by apply inbox_socket_emit_other.
  - apply step_same_state; [by apply bool_decide_eq_true | done |]. simpl. unfold on_typing. by rewrite Hg.
  - apply step_same_state; [by apply bool_decide_eq_true | done |]. simpl. unfold on_stop_typing. by rewrite Hg.
Qed.

Lemma unauthenticated_events_witness :
  @step latin1 (Typing "C") with_guest = Some (with_guest, []) ∧
  @step latin1 (StopTyping "C") with_guest = Some (with_guest, []) ∧
  ∃ out, @step latin1 (ChatMessage "C" "hi" 1700000000000 "2023-11-14T22:13:20.000Z")
           with_guest = Some (with_guest, out) ∧
         inbox (sockets with_guest) out "C"
           = [("error", PString "You must join the chat first")].
Proof.
  destruct (@unauthenticated_events latin1 with_guest "C") as (Hmsg & Ht & Hs).
  - compute_done.
  - reflexivity.
  - split; [exact Ht|]. split; [exact Hs|].
    destruct (Hmsg "hi" 1700000000000%Z "2023-11-14T22:13:20.000Z")
      as (out & Hstep & _ & _ & Hbox & _).
    exists out. split; [exact Hstep | exact Hbox].
Defined.

(** C5, as stated, fails for typing events: the guest of [with_guest] is
    connected and has no registry entry, and its [typing] event is dropped
    without any event being sent back to it. *)
Lemma typing_unauthenticated_no_error :
  @reachable latin1 with_guest ∧
  "C" ∈ sockets with_guest ∧
  JSMap.get "C" (connectedUsers (globals with_guest)) = None ∧
  ∃ out, @step latin1 (Typing "C") with_guest = Some (with_guest, out) ∧
         inbox (sockets with_guest) out "C" = [] ∧
         ¬ ∃ reason, SocketEmit "C" "error" (PString reason) ∈ out.
Proof.
  split; [apply with_guest_reachable|].
  split; [compute_done|]. split; [reflexivity|].
  exists []. split; [vm_compute; reflexivity|]. split; [reflexivity|].
  intros [reason Hin]. inversion Hin.
Qed.

(** C6. A registered socket sends a chat message.  When the body trims to
    the empty string nothing happens: no effect at all, same state.
    Otherwise the state is the same and every registered socket, the sender
    among them, receives one [new-message] event whose body is the trimmed
    text and whose author is the sender's name. *)
Theorem chat_message_authenticated `{JSString} (s : Server)
    (sid name message : string) (now : Z) (iso : string) :
  reachable s →
  JSMap.get sid (connectedUsers (globals s)) = Some name →
  (trim message = "" →
   step (ChatMessage sid message now iso) s = Some (s, []))
  ∧
  (trim message ≠ "" →
   ∃ out,
     step (ChatMessage sid message now iso) s = Some (s, out) ∧
     inbox (sockets s) out sid
       = [("new-message",
           PMessage (pretty now +:+ "-" +:+ sid) name (trim message) iso)] ∧
     ∀ r, is_Some (JSMap.get r (connectedUsers (globals s))) →
          inbox (sockets s) out r
            = [("new-message",
                PMessage (pretty now +:+ "-" +:+ sid) name (trim message) iso)]).
Proof.
  intros Hc%reachable_consistent Hg.
  pose proof (truthy_registered s sid name Hc Hg) as Ht.
  pose proof (keys_connected s Hc sid name Hg) as Hin.
  split.
  - intros He. apply step_same_state; [by apply bool_decide_eq_true | done |].
    simpl. unfold on_chat_message. rewrite Ht. by rewrite decide_True.
  - intros Hne. eexists. split.
    + apply step_same_state; [by apply bool_decide_eq_true | done |].
      simpl. unfold on_chat_message. rewrite Ht. by rewrite decide_False.
    + assert (∀ r, r ∈ sockets s →
        inbox (sockets s)
          [IoEmit "new-message"
             (PMessage (pretty now +:+ "-" +:+ sid) name (trim message) iso);
           ConsoleLog ("[MESSAGE] " +:+ name +:+ ": " +:+
             (if decide (50 < String.length (trim message))
              then String.substring 0 50 (trim message) +:+ "..."
              else trim message))] r
        = [("new-message",
            PMessage (pretty now +:+ "-" +:+ sid) name (trim message) iso)])
        as Hall.
      { intros r Hr. rewrite inbox_io_emit by done.
        by rewrite inbox_console, inbox_nil. }
      split; [by apply Hall|].
      intros r [v Hv]. apply Hall. by eapply keys_connected.
Qed.

Lemma chat_message_authenticated_witness :
  @step latin1 (ChatMessage "A" "  " 1700000000000 "2023-11-14T22:13:20.000Z")
    alice_and_bob = Some (alice_and_bob, []) ∧
  ∃ out,
    @step latin1 (ChatMessage "A" " hi " 1700000000000 "2023-11-14T22:13:20.000Z")
      alice_and_bob = Some (alice_and_bob, out) ∧
    inbox (sockets alice_and_bob) out "B"
      = [("new-message",
          PMessage "1700000000000-A" "alice" "hi" "2023-11-14T22:13:20.000Z")].
Proof.
  assert (Hr : @reachable latin1 alice_and_bob).
  { exists two_users. vm_compute. reflexivity. }
  split.
  - apply (@chat_message_authenticated latin1 alice_and_bob "A" "alice" "  "
             1700000000000%Z "2023-11-14T22:13:20.000Z" Hr eq_refl).
    reflexivity.
  - destruct (@chat_message_authenticated latin1 alice_and_bob "A" "alice" " hi "
                1700000000000%Z "2023-11-14T22:13:20.000Z" Hr eq_refl)
      as [_ Hsend].
    destruct Hsend as (out & Hstep & _ & Hall); [discriminate|].
    exists out. split; [exact Hstep|].
    apply (Hall "B"). exists "bob". reflexivity.
Defined.

(** C9. A registered socket sends [typing] or [stop-typing].  The state is
    the same, the sender receives nothing, and every other connected socket
    receives one [user-typing], respectively [user-stop-typing], event whose
    payload is the sender's name. *)
Theorem typing_reaches_the_others `{JSString} (s : Server) (sid name : string) :
  reachable s →
  JSMap.get sid (connectedUsers (globals s)) = Some name →
  ∃ started stopped,
    step (Typing sid) s = Some (s, started) ∧
    step (StopTyping sid) s = Some (s, stopped) ∧
    inbox (sockets s) started sid = [] ∧
    inbox (sockets s) stopped sid = [] ∧
    ∀ r, r ∈ sockets s → r ≠ sid →
         inbox (sockets s) started r = [("user-typing", PString name)] ∧
         inbox (sockets s) stopped r = [("user-stop-typing", PString name)].
Proof.
  intros Hc%reachable_consistent Hg.
  pose proof (truthy_registered s sid name Hc Hg) as Ht.
  pose proof (keys_connected s Hc sid name Hg) as Hin.
  exists [SocketBroadcastEmit sid "user-typing" (PString name)],
         [SocketBroadcastEmit sid "user-stop-typing" (PString name)].
  split; [|split].
  - apply step_same_state; [by apply bool_decide_eq_true | done |]. simpl. unfold on_typing. by rewrite Ht.
  - apply step_same_state; [by apply bool_decide_eq_true | done |]. simpl. unfold on_stop_typing. by rewrite Ht.
  - split; [apply inbox_broadcast_self|]. split; [apply inbox_broadcast_self|].
    intros r Hr Hne. split; by apply inbox_broadcast_other.
Qed.

Lemma typing_reaches_the_others_witness :
  ∃ started stopped,
    @step latin1 (Typing "A") with_guest = Some (with_guest, started) ∧
    @step latin1 (StopTyping "A") with_guest = Some (with_guest, stopped) ∧
    inbox (sockets with_guest) started "A" = [] ∧
    inbox (sockets with_guest) started "B" = [("user-typing", PString "alice")] ∧
    inbox (sockets with_guest) stopped "C" = [("user-stop-typing", PString "alice")].
Proof.
  assert (Hr : @reachable latin1 with_guest).
  { exists (two_users ++ [Connection "C"]). vm_compute. reflexivity. }
  destruct (@typing_reaches_the_others latin1 with_guest "A" "alice" Hr eq_refl)
    as (started & stopped & H1 & H2 & H3 & _ & Hall).
  exists started, stopped.
  split; [exact H1|]. split; [exact H2|]. split; [exact H3|]. split.
  - apply (Hall "B"); [compute_done | discriminate].
  - apply (Hall "C"); [compute_done | discriminate].
Defined.

Lemma not_elem_of_remove (x : string) (X : gset string) : x ∉ X ∖ {[x]}.
Proof. intros [_ Hx]%elem_of_difference. by apply Hx, elem_of_singleton. Qed.

(** The two ways a [disconnect] callback ends. *)
Lemma on_disconnect_registered (sid name : string) (σ : State) :
  truthy (JSMap.get sid (connectedUsers σ)) = Some name →
  on_disconnect sid σ =
    ({| connectedUsers := JSMap.delete sid (connectedUsers σ);
        takenUsernames := JSSet.delete name (takenUsernames σ) |},
     [IoEmit "user-left"
        (PPresence name
           (JSMap.size (JSMap.delete sid (connectedUsers σ)))
           (JSMap.values (JSMap.delete sid (connectedUsers σ))));
      ConsoleLog ("[DISCONNECT] " +:+ name
                  +:+ " left the chat. Total users: "
                  +:+ pretty (JSMap.size (JSMap.delete sid (connectedUsers σ))))]).
Proof. intros Ht. unfold on_disconnect. by rewrite Ht. Qed.

Lemma on_disconnect_unregistered (sid : string) (σ : State) :
  truthy (JSMap.get sid (connectedUsers σ)) = None →
  on_disconnect sid σ =
    (σ, [ConsoleLog ("[DISCONNECT] Unregistered client disconnected: " +:+ sid)]).
Proof. intros Ht. unfold on_disconnect. by rewrite Ht. Qed.

(** C7. The [disconnect] callback is a total function of the state, so a
    call cannot raise.  On a state of a run, the name it announces is the
    registry entry of the socket, if there is one, and no name otherwise; a
    second call on the same socket returns the state of the first call
    unchanged, announces no name, and nothing of it reaches any socket. *)
Theorem leave_idempotent `{JSString} (s : Server) (sid : string) :
  reachable s →
  departed (on_disconnect sid (globals s)).2
    = JSMap.get sid (connectedUsers (globals s)) ∧
  (JSMap.get sid (connectedUsers (globals s)) = None →
   (on_disconnect sid (globals s)).1 = globals s ∧
   existsb is_broadcast (on_disconnect sid (globals s)).2 = false) ∧
  (on_disconnect sid (on_disconnect sid (globals s)).1).1
    = (on_disconnect sid (globals s)).1 ∧
  departed (on_disconnect sid (on_disconnect sid (globals s)).1).2 = None ∧
  existsb is_broadcast (on_disconnect sid (on_disconnect sid (globals s)).1).2
    = false ∧
  ∀ conn r,
    inbox conn (on_disconnect sid (on_disconnect sid (globals s)).1).2 r = [].
Proof.
  intros Hc%reachable_consistent.
  assert (Hgone : truthy (JSMap.get sid
            (connectedUsers (on_disconnect sid (globals s)).1)) = None).
  { destruct (truthy (JSMap.get sid (connectedUsers (globals s)))) as [u|] eqn:Ht.
    - rewrite (on_disconnect_registered sid u) by done. simpl.
      rewrite JSMap_get_delete. by rewrite decide_True.
    - by rewrite on_disconnect_unregistered. }
  rewrite (on_disconnect_unregistered sid (on_disconnect sid (globals s)).1) by done.
  simpl. split; [|split]; [| |split; [done|split; [done|split; [done|]]]].
  - destruct (JSMap.get sid (connectedUsers (globals s))) as [name|] eqn:Hg.
    + rewrite (on_disconnect_registered sid name); [done|].
      rewrite Hg. apply truthy_Some. split; [done|]. by eapply names_nonempty.
    + rewrite on_disconnect_unregistered; [done|]. by rewrite Hg.
  - intros Hg. rewrite on_disconnect_unregistered; [done|]. by rewrite Hg.
  - intros conn r. by rewrite inbox_console, inbox_nil.
Qed.

Lemma leave_idempotent_witness :
  departed (on_disconnect "A" (globals alice_and_bob)).2 = Some "alice" ∧
  departed (on_disconnect "C" (globals with_guest)).2 = None ∧
  (on_disconnect "A" (on_disconnect "A" (globals alice_and_bob)).1).1
    = (on_disconnect "A" (globals alice_and_bob)).1 ∧
  departed
    (on_disconnect "A" (on_disconnect "A" (globals alice_and_bob)).1).2
    = None.
Proof.
  assert (Hr : @reachable latin1 alice_and_bob).
  { exists two_users. vm_compute. reflexivity. }
  assert (Hr' : @reachable latin1 with_guest).
  { exists (two_users ++ [Connection "C"]). vm_compute. reflexivity. }
  destruct (@leave_idempotent latin1 alice_and_bob "A" Hr)
    as (Hname & _ & Hsame & Hnone & _).
  destruct (@leave_idempotent latin1 with_guest "C" Hr') as (Hguest & _).
  split; [exact Hname|]. split; [exact Hguest|]. split; [exact Hsame | exact Hnone].
Defined.

(** C8. A connected socket disconnects, on a state of a run.  When it has a
    registry entry, the entry is deleted and its name leaves the directory,
    the other entries stay, the registry is one entry smaller, and every
    socket still registered receives one [user-left] event carrying the
    name, the size of the registry after the removal and its names in order;
    the socket that left receives nothing.  When it has no entry the globals
    stay as they are and nothing reaches any socket. *)
Theorem disconnect_announces_departure `{JSString} (s : Server) (sid : string) :
  reachable s →
  sid ∈ sockets s →
  ∃ s' out,
    step (Disconnect sid) s = Some (s', out) ∧
    sockets s' = sockets s ∖ {[sid]} ∧
    match JSMap.get sid (connectedUsers (globals s)) with
    | Some name =>
        JSMap.get sid (connectedUsers (globals s')) = None ∧
        (∀ other, other ≠ sid →
           JSMap.get other (connectedUsers (globals s'))
           = JSMap.get other (connectedUsers (globals s))) ∧
        (name ∉ takenUsernames (globals s')) ∧
        (∀ other, other ≠ name →
           (other ∈ takenUsernames (globals s') ↔
            other ∈ takenUsernames (globals s))) ∧
        S (JSMap.size (connectedUsers (globals s')))
          = JSMap.size (connectedUsers (globals s)) ∧
        inbox (sockets s') out sid = [] ∧
        ∀ r, is_Some (JSMap.get r (connectedUsers (globals s'))) →
             inbox (sockets s') out r
               = [("user-left",
                   PPresence name
                     (JSMap.size (connectedUsers (globals s')))
                     (JSMap.values (connectedUsers (globals s'))))]
    | None =>
        globals s' = globals s ∧
        existsb is_broadcast out = false ∧
        ∀ r, inbox (sockets s') out r = []
    end.
Proof.
  intros Hr Hin. pose proof (reachable_consistent s Hr) as Hc.
  destruct (step (Disconnect sid) s) as [[s' out]|] eqn:Hstep.
  2:{ apply eq_None_not_Some in Hstep. destruct Hstep.
      eexists. apply step_Some. split; [|done]. by apply bool_decide_eq_true. }
  exists s', out. split; [done|].
  pose proof (reachable_consistent s' (reachable_step _ _ _ _ Hr Hstep)) as Hc'.
  apply step_Some in Hstep as (_ & -> & ->).
  change (handle (Disconnect sid) (globals s))
    with (on_disconnect sid (globals s)) in *.
  split; [done|].
  destruct (JSMap.get sid (connectedUsers (globals s))) as [name|] eqn:Hg.
  - pose proof (truthy_registered s sid name Hc Hg) as Ht.
    rewrite (on_disconnect_registered sid name _ Ht) in *.
    simpl in *. split; [by rewrite JSMap_get_delete, decide_True|].
    split; [intros other Ho; by rewrite JSMap_get_delete, decide_False|].
    unfold JSSet.delete. split; [apply not_elem_of_remove|].
    split; [intros other Ho; rewrite elem_of_difference, elem_of_singleton; tauto|].
    split; [apply JSMap_size_delete; [apply Hc | congruence]|].
    split; [apply inbox_disconnected, not_elem_of_remove|].
    intros r [v Hv]. rewrite inbox_io_emit by (by eapply (keys_connected _ Hc')).
    by rewrite inbox_console, inbox_nil.
  - rewrite on_disconnect_unregistered by (by rewrite Hg). simpl in *.
    split; [done|]. split; [done|].
    intros r. by rewrite inbox_console, inbox_nil.
Qed.

Lemma disconnect_announces_departure_witness :
  ∃ s' out,
    @step latin1 (Disconnect "A") alice_and_bob = Some (s', out) ∧
    connectedUsers (globals s') = [("B", "bob")] ∧
    ("alice" ∉ takenUsernames (globals s')) ∧
    inbox (sockets s') out "B" = [("user-left", PPresence "alice" 1 ["bob"])].
Proof.
  assert (Hr : @reachable latin1 alice_and_bob).
  { exists two_users. vm_compute. reflexivity. }
  assert (Hin : "A" ∈ sockets alice_and_bob) by compute_done.
  destruct (@disconnect_announces_departure latin1 alice_and_bob "A" Hr Hin)
    as (s' & out & Hstep & Hconn & Hcase).
  exists s', out. split; [exact Hstep|].
  assert (Hs' : connectedUsers (globals s') = [("B", "bob")]).
  { vm_compute in Hstep. by injection Hstep as <- _. }
  split; [exact Hs'|].
  simpl in Hcase. destruct Hcase as (_ & _ & Hfree & _ & _ & _ & Hall).
  split; [exact Hfree|].
  rewrite (Hall "B"); [by rewrite Hs'|].
  rewrite Hs'. exists "bob". reflexivity.
Defined.

(** ** Names that stay taken *)

(** No step frees an orphaned name: a join only adds to the directory, and a
    disconnect deletes the name its socket holds, which is another one. *)
Lemma orphaned_step `{JSString} (name : string) (e : Event) (s s' : Server)
    (out : list Effect) :
  orphaned name (globals s) → step e s = Some (s', out) →
  orphaned name (globals s').
Proof.
  intros [Hin Hfree] (_ & -> & _)%step_Some. simpl.
  destruct e as [sid|sid u|sid m now iso|sid|sid|sid];
    try (by rewrite handle_reads_only by done).
  - simpl. destruct (decide (trim u = "")) as [He|Hne].
    { by rewrite on_user_join_empty. }
    destruct (isTaken (toLowerCase (trim u)) (takenUsernames (globals s))) eqn:Ht.
    { by rewrite on_user_join_taken. }
    rewrite on_user_join_accepted by done. split; project_state.
    + by apply elem_of_union_r.
    + intros r. rewrite JSMap_get_set.
      destruct (decide (r = sid)) as [->|]; [|apply Hfree].
      intros [= Heq]. apply (proj1 (isTaken_false _ _) Ht name Hin).
      by rewrite Heq.
  - simpl. destruct (truthy (JSMap.get sid (connectedUsers (globals s))))
      as [u|] eqn:Ht.
    + rewrite (on_disconnect_registered sid u) by done. split; project_state.
      * apply elem_of_difference. split; [done|].
        intros ->%elem_of_singleton. apply truthy_Some in Ht as [Ht _].
        by apply (Hfree sid).
      * intros r. rewrite JSMap_get_delete.
        destruct (decide (r = sid)); [done | apply Hfree].
    + by rewrite on_disconnect_unregistered.
Qed.

Lemma orphaned_exec `{JSString} (name : string) (tr : list Event) (s s' : Server) :
  orphaned name (globals s) → exec tr s = Some s' → orphaned name (globals s').
Proof.
  apply (exec_invariant (λ s, orphaned name (globals s))).
  intros e s1 s2 out. apply orphaned_step.
Qed.

(** C10. A registered socket sends a second join request whose trimmed name
    is not empty and not taken.  The request is accepted and the socket's
    registry entry becomes the new name, while the name it held stays in the
    directory: after any further run, the disconnection of that socket
    included, the old name is still in the directory, no socket holds it,
    and every join request for a name with the same lower-cased form is
    refused as taken. *)
Theorem rejoin_orphans_old_name `{JSString} (s : Server)
    (sid old username : string) :
  reachable s →
  JSMap.get sid (connectedUsers (globals s)) = Some old →
  trim username ≠ "" →
  (∀ name, name ∈ takenUsernames (globals s) →
           toLowerCase name ≠ toLowerCase (trim username)) →
  ∃ s1 out,
    step (UserJoin sid username) s = Some (s1, out) ∧
    JSMap.get sid (connectedUsers (globals s1)) = Some (trim username) ∧
    ∀ tr s2, exec tr s1 = Some s2 →
      old ∈ takenUsernames (globals s2) ∧
      (∀ r, JSMap.get r (connectedUsers (globals s2)) ≠ Some old) ∧
      ∀ r attempt,
        r ∈ sockets s2 →
        trim attempt ≠ "" →
        toLowerCase (trim attempt) = toLowerCase old →
        step (UserJoin r attempt) s2 =
          Some (s2, [SocketEmit r "join-error"
                       (PString "Username is already taken. Please choose another.")]).
Proof.
  intros Hc%reachable_consistent Hg Hne Hfree.
  pose proof (keys_connected s Hc sid old Hg) as Hin.
  pose proof (names_taken s Hc sid old Hg) as Hold.
  destruct (step (UserJoin sid username) s) as [[s1 out]|] eqn:Hstep.
  2:{ apply eq_None_not_Some in Hstep. destruct Hstep.
      eexists. apply step_Some. split; [|done]. by apply bool_decide_eq_true. }
  exists s1, out. split; [done|].
  apply step_Some in Hstep as (_ & -> & _). simpl.
  rewrite on_user_join_accepted by (try apply isTaken_false; done).
  project_state.
  split; [by rewrite JSMap_get_set, decide_True|].
  intros tr s2 Htr.
  assert (orphaned old (globals s2)) as [Hin2 Hfree2].
  { eapply orphaned_exec; [|exact Htr]. split; project_state.
    - by apply elem_of_union_r.
    - intros r. rewrite JSMap_get_set.
      destruct (decide (r = sid)) as [->|Hr].
      + intros [= Heq]. apply (Hfree old Hold). by rewrite Heq.
      + intros Hr'. by apply (names_distinct s Hc r sid old old). }
  split; [done|]. split; [done|].
  intros r attempt Hr Hne' Hlow.
  apply step_same_state; [by apply bool_decide_eq_true | done |].
  simpl. apply on_user_join_taken; [done|].
  apply isTaken_true. by exists old.
Qed.

Lemma rejoin_orphans_old_name_witness :
  ∃ s1 out s2,
    @step latin1 (UserJoin "A" "bob") only_alice = Some (s1, out) ∧
    @exec latin1 [Disconnect "A"; Connection "B"] s1 = Some s2 ∧
    connectedUsers (globals s2) = [] ∧
    "alice" ∈ takenUsernames (globals s2) ∧
    @step latin1 (UserJoin "B" " Alice") s2 =
      Some (s2, [SocketEmit "B" "join-error"
                   (PString "Username is already taken. Please choose another.")]).
Proof.
  assert (Hr : @reachable latin1 only_alice).
  { exists [Connection "A"; UserJoin "A" "alice"]. vm_compute. reflexivity. }
  assert (Hfree : ∀ name, name ∈ takenUsernames (globals only_alice) →
            @toLowerCase latin1 name ≠ @toLowerCase latin1 (@trim latin1 "bob")).
  { intros name Hin. apply elem_of_elements in Hin. vm_compute in Hin.
    apply elem_of_cons in Hin as [->|Hin]; [discriminate | inversion Hin]. }
  destruct (@rejoin_orphans_old_name latin1 only_alice "A" "alice" "bob"
              Hr eq_refl) as (s1 & out & Hstep & _ & Hall);
    [discriminate | exact Hfree |].
  assert (Hs1 : s1 = {| sockets := {["A"]};
                        globals := {| connectedUsers := [("A", "bob")];
                                      takenUsernames := {["alice"; "bob"]} |} |}).
  { vm_compute in Hstep. by injection Hstep as <- _. }
  subst s1.
  pose (s2 := {| sockets := {["B"]};
                 globals := {| connectedUsers := [];
                               takenUsernames := {["alice"]} |} |}).
  assert (Htr : @exec latin1 [Disconnect "A"; Connection "B"]
                  {| sockets := {["A"]};
                     globals := {| connectedUsers := [("A", "bob")];
                                   takenUsernames := {["alice"; "bob"]} |} |}
                = Some s2).
  { vm_compute. reflexivity. }
  destruct (Hall _ s2 Htr) as (Hin & _ & Hrej).
  eexists _, out, s2. split; [exact Hstep|]. split; [exact Htr|].
  split; [reflexivity|]. split; [exact Hin|].
  apply Hrej.
  - compute_done.
  - discriminate.
  - reflexivity.
Defined.

(** ** The directory against the registry *)

(** The names the registry keeps when the entry of [sid] is deleted. *)
Lemma values_delete `{JSString} (s : Server) (sid name x : string) :
  consistent s →
  JSMap.get sid (connectedUsers (globals s)) = Some name →
  x ∈ JSMap.values (JSMap.delete sid (connectedUsers (globals s))) ↔
  x ∈ JSMap.values (connectedUsers (globals s)) ∧ x ≠ name.
Proof.
  intros Hc Hg. split.
  - intros [k Hk]%JSMap_value_get; [|apply JSMap_NoDup_delete, Hc].
    rewrite JSMap_get_delete in Hk.
    destruct (decide (k = sid)) as [|Hne]; [done|]. split.
    + by eapply JSMap_get_value.
    + intros ->. by apply (names_distinct s Hc k sid name name).
  - intros [[k Hk]%JSMap_value_get Hx]; [|apply Hc].
    apply (JSMap_get_value k). rewrite JSMap_get_delete.
    destruct (decide (k = sid)) as [->|]; [congruence | done].
Qed.

(** A step whose join request, if it is one, comes from a socket without an
    entry keeps the directory equal to the set of the registry's names. *)
Lemma directory_consistent_step `{JSString} (e : Event) (s s' : Server)
    (out : list Effect) :
  consistent s → directory_consistent (globals s) →
  join_is_first e (globals s) →
  step e s = Some (s', out) →
  directory_consistent (globals s').
Proof.
  intros Hc Hd Hfirst (_ & -> & _)%step_Some. project_state.
  destruct e as [sid|sid u|sid m now iso|sid|sid|sid];
    try (by rewrite handle_reads_only by done).
  - cbn [handle]. destruct (decide (trim u = "")) as [He|Hne].
    { by rewrite on_user_join_empty. }
    destruct (isTaken (toLowerCase (trim u)) (takenUsernames (globals s))) eqn:Ht.
    { by rewrite on_user_join_taken. }
    rewrite on_user_join_accepted by done.
    unfold directory_consistent in *. project_state.
    simpl in Hfirst. rewrite (JSMap_set_fresh _ _ _ Hfirst).
    unfold JSMap.values. rewrite fmap_app, list_to_set_app_L, Hd.
    apply set_eq. intros x.
    unfold JSMap.values. cbn [fmap list_fmap snd].
    rewrite !elem_of_union, !elem_of_list_to_set, list_elem_of_singleton,
      elem_of_singleton.
    tauto.
  - cbn [handle].
    destruct (JSMap.get sid (connectedUsers (globals s))) as [name|] eqn:Hg.
    + pose proof (truthy_registered s sid name Hc Hg) as Ht.
      rewrite (on_disconnect_registered sid name _ Ht).
      unfold directory_consistent in *. project_state.
      apply set_eq. intros x.
      rewrite elem_of_difference, elem_of_singleton, elem_of_list_to_set.
      rewrite (values_delete s sid name x Hc Hg), Hd.
      by rewrite elem_of_list_to_set.
    + rewrite on_disconnect_unregistered; [done|]. by rewrite Hg.
Qed.

(** X4. As long as no socket sends a join request while it is registered,
    the directory is the set of the names in the registry. *)
Proposition directory_consistent_joins_first `{JSString} (tr : list Event)
    (s : Server) :
  joins_first tr init → exec tr init = Some s →
  directory_consistent (globals s).
Proof.
  assert (∀ s0, consistent s0 → directory_consistent (globals s0) →
            joins_first tr s0 → exec tr s0 = Some s →
            directory_consistent (globals s)) as Hgen.
  { induction tr as [|e tr IH]; intros s0 Hc Hd; simpl.
    - by intros _ [= <-].
    - intros [Hfirst Hrest].
      destruct (step e s0) as [[s1 out]|] eqn:Hstep; [|discriminate].
      apply IH; [|by eapply directory_consistent_step|done].
      by eapply consistent_step. }
  apply Hgen; [apply consistent_init|].
  reflexivity.
Qed.

(** X3. In every state of a run the directory contains the names of the
    registry; the converse is what a second join of a socket breaks. *)
Proposition registry_names_in_directory `{JSString} (s : Server) (name : string) :
  reachable s →
  name ∈ JSMap.values (connectedUsers (globals s)) →
  name ∈ takenUsernames (globals s).
Proof.
  intros Hc%reachable_consistent [k Hk]%JSMap_value_get; [|apply Hc].
  by eapply names_taken.
Qed.

(** C1, on the run [rejoin]: after a socket joined as alice and then again
    as bob, the registry maps it to bob alone while the directory holds both
    alice and bob, so the directory is not the set of the registry's names. *)
Theorem rejoin_breaks_directory_consistency :
  ∃ s, @exec latin1 rejoin init = Some s ∧
       connectedUsers (globals s) = [("A", "bob")] ∧
       takenUsernames (globals s) = {["alice"; "bob"]} ∧
       ¬ directory_consistent (globals s).
Proof.
  exists {| sockets := {["A"]};
            globals := {| connectedUsers := [("A", "bob")];
                          takenUsernames := {["alice"; "bob"]} |} |}.
  split; [vm_compute; reflexivity|]. split; [reflexivity|]. split; [reflexivity|].
  unfold directory_consistent. simpl. intros Heq.
  assert (Hin : "alice" ∈ ({["alice"; "bob"]} : gset string)) by compute_done.
  rewrite Heq in Hin. revert Hin. compute_done.
Qed.

(** ** Further properties of the server *)

(** X1. In every state of a run, a socket that has a registry entry is
    connected: no entry outlives the connection of its socket. *)
Theorem registered_sockets_are_connected `{JSString} (s : Server)
    (sid name : string) :
  reachable s →
  JSMap.get sid (connectedUsers (globals s)) = Some name →
  sid ∈ sockets s.
Proof. intros Hc%reachable_consistent. apply (keys_connected s Hc). Qed.

Lemma registered_sockets_are_connected_witness :
  @reachable latin1 alice_and_bob ∧ "B" ∈ sockets alice_and_bob.
Proof.
  assert (Hr : @reachable latin1 alice_and_bob).
  { exists two_users. vm_compute. reflexivity. }
  split; [exact Hr|].
  apply (@registered_sockets_are_connected latin1 alice_and_bob "B" "bob" Hr).
  reflexivity.
Defined.

(** X2. In every state of a run the registered names are not empty, so the
    guards [if (username)] and [if (!username)] of the handlers test exactly
    whether the socket has an entry. *)
Theorem registry_guard_is_exact `{JSString} (s : Server) (sid : string) :
  reachable s →
  JSMap.get sid (connectedUsers (globals s)) ≠ Some "" ∧
  truthy (JSMap.get sid (connectedUsers (globals s)))
    = JSMap.get sid (connectedUsers (globals s)).
Proof.
  intros Hc%reachable_consistent.
  assert (JSMap.get sid (connectedUsers (globals s)) ≠ Some "") as Hne.
  { intros Hg. by apply (names_nonempty s Hc sid ""). }
  split; [done|].
  destruct (JSMap.get sid (connectedUsers (globals s))) as [name|] eqn:Hg;
    [|done].
  apply truthy_Some. split; [done|]. congruence.
Qed.

Lemma registry_guard_is_exact_witness :
  truthy (JSMap.get "A" (connectedUsers (globals alice_and_bob))) = Some "alice".
Proof.
  assert (Hr : @reachable latin1 alice_and_bob).
  { exists two_users. vm_compute. reflexivity. }
  destruct (@registry_guard_is_exact latin1 alice_and_bob "A" Hr) as [_ Ht].
  exact Ht.
Defined.

(** Witnesses of the two facts about the directory proved above. *)
Lemma registry_names_in_directory_witness :
  @reachable latin1 alice_and_bob ∧ "bob" ∈ takenUsernames (globals alice_and_bob).
Proof.
  assert (Hr : @reachable latin1 alice_and_bob).
  { exists two_users. vm_compute. reflexivity. }
  split; [exact Hr|].
  apply (@registry_names_in_directory latin1 alice_and_bob "bob" Hr).
  apply (JSMap_get_value "B"). reflexivity.
Defined.

Lemma directory_consistent_joins_first_witness :
  directory_consistent (globals alice_and_bob).
Proof.
  apply (@directory_consistent_joins_first latin1 two_users alice_and_bob).
  - vm_compute. tauto.
  - vm_compute. reflexivity.
Defined.

(** Events other than [user-join] and [disconnect] leave the globals alone. *)
Lemma step_reads_only `{JSString} (e : Event) (s s' : Server) (out : list Effect) :
  (∀ sid username, e ≠ UserJoin sid username) →
  (∀ sid, e ≠ Disconnect sid) →
  step e s = Some (s', out) → globals s' = globals s.
Proof.
  intros Hj Hd (_ & -> & _)%step_Some. simpl. by apply handle_reads_only.
Qed.

(** X5. A connection, a chat message, a typing and a stop-typing event never
    change the registry or the directory, whatever the state and whoever
    sends them: only [user-join] and [disconnect] write to the globals. *)
Theorem only_join_and_disconnect_write `{JSString} (e : Event) (s s' : Server)
    (out : list Effect) :
  step e s = Some (s', out) →
  globals s' ≠ globals s →
  (∃ sid username, e = UserJoin sid username) ∨ (∃ sid, e = Disconnect sid).
Proof.
  intros Hstep Hne.
  destruct e as [sid|sid u|sid m now iso|sid|sid|sid]; eauto;
    destruct Hne; revert Hstep; by apply step_reads_only.
Qed.

Lemma only_join_and_disconnect_write_witness :
  (∃ sid username, UserJoin "A" "carol" = UserJoin sid username) ∨
  (∃ sid, UserJoin "A" "carol" = Disconnect sid).
Proof.
  apply (@only_join_and_disconnect_write latin1 (UserJoin "A" "carol")
           alice_and_bob
           {| sockets := {["A"; "B"]};
              globals := {| connectedUsers := [("A", "carol"); ("B", "bob")];
                            takenUsernames := {["alice"; "bob"; "carol"]} |} |}
           (@on_user_join latin1 "A" "carol" (globals alice_and_bob)).2).
  - vm_compute. reflexivity.
  - intros Heq. apply (f_equal connectedUsers) in Heq. discriminate.
Defined.

(** *** Names up to case *)

Lemma directory_distinct_step `{JSString} (e : Event) (s s' : Server)
    (out : list Effect) :
  directory_distinct (globals s) → step e s = Some (s', out) →
  directory_distinct (globals s').
Proof.
  intros Hd (_ & -> & _)%step_Some. project_state.
  destruct e as [sid|sid u|sid m now iso|sid|sid|sid];
    try (by rewrite handle_reads_only by done).
  - cbn [handle]. destruct (decide (trim u = "")) as [He|Hne].
    { by rewrite on_user_join_empty. }
    destruct (isTaken (toLowerCase (trim u)) (takenUsernames (globals s))) eqn:Ht.
    { by rewrite on_user_join_taken. }
    rewrite on_user_join_accepted by done.
    pose proof (proj1 (isTaken_false _ _) Ht) as Hfree.
    intros n1 n2. project_state. rewrite !elem_of_union, !elem_of_singleton.
    intros [->|H1] [->|H2] Heq; try done.
    + by destruct (Hfree n2 H2).
    + by destruct (Hfree n1 H1).
    + by apply Hd.
  - cbn [handle]. unfold on_disconnect.
    destruct (truthy _) as [u|]; [|done].
    intros n1 n2. project_state. rewrite !elem_of_difference.
    intros [H1 _] [H2 _]. by apply Hd.
Qed.

Lemma reachable_directory_distinct `{JSString} (s : Server) :
  reachable s → directory_distinct (globals s).
Proof.
  intros [tr Htr]. revert Htr.
  apply (exec_invariant (λ s, directory_distinct (globals s))).
  - intros e s1 s2 out. apply directory_distinct_step.
  - intros n1 n2 Hin. by apply not_elem_of_empty in Hin.
Qed.

(** X6. In every state of a run, two names of the directory that are equal
    up to case are the same name.  This covers the names no socket holds any
    more as well as the registered ones. *)
Theorem directory_names_differ `{JSString} (s : Server) (name1 name2 : string) :
  reachable s →
  name1 ∈ takenUsernames (globals s) →
  name2 ∈ takenUsernames (globals s) →
  toLowerCase name1 = toLowerCase name2 →
  name1 = name2.
Proof.
  intros Hr. apply (reachable_directory_distinct s Hr).
Qed.

Lemma directory_names_differ_witness :
  @reachable latin1 alice_and_bob ∧ "bob" = "bob".
Proof.
  assert (Hr : @reachable latin1 alice_and_bob).
  { exists two_users. vm_compute. reflexivity. }
  split; [exact Hr|].
  apply (@directory_names_differ latin1 alice_and_bob "bob" "bob" Hr).
  - compute_done.
  - compute_done.
  - reflexivity.
Defined.

(** X7. When a registered socket disconnects, the name it held is free
    again at once: any connected socket that then asks for that name, in any
    letter case, is accepted and registered under the name it asked for. *)
Theorem released_name_is_claimable `{JSString} (s s' : Server)
    (sid name : string) (out : list Effect) (r username : string) :
  reachable s →
  JSMap.get sid (connectedUsers (globals s)) = Some name →
  step (Disconnect sid) s = Some (s', out) →
  r ∈ sockets s' →
  trim username ≠ "" →
  toLowerCase (trim username) = toLowerCase name →
  ∃ s'' out',
    step (UserJoin r username) s' = Some (s'', out') ∧
    JSMap.get r (connectedUsers (globals s'')) = Some (trim username) ∧
    inbox (sockets s'') out' r !! 0%nat
      = Some ("join-success", PString (trim username)).
Proof.
  intros Hr Hg Hstep Hin Hne Hlow.
  pose proof (reachable_consistent s Hr) as Hc.
  pose proof (names_taken s Hc sid name Hg) as Hname.
  pose proof (truthy_registered s sid name Hc Hg) as Ht.
  apply step_Some in Hstep as (_ & -> & _).
  cbn [handle] in *. rewrite (on_disconnect_registered sid name _ Ht) in *.
  cbn [fst sockets globals] in *.
  assert (isTaken (toLowerCase (trim username))
            (JSSet.delete name (takenUsernames (globals s))) = false) as Hfree.
  { apply isTaken_false. unfold JSSet.delete.
    intros other [Ho Hneq]%elem_of_difference Heq.
    apply Hneq, elem_of_singleton.
    apply (reachable_directory_distinct s Hr other name Ho Hname). congruence. }
  eexists _, _. split.
  - apply step_Some. split; [by apply bool_decide_eq_true|]. split; reflexivity.
  - cbn [handle globals sockets sockets_during].
    rewrite on_user_join_accepted by done. project_state. split.
    + by rewrite JSMap_get_set, decide_True.
    + unfold inbox. rewrite decide_True by done. simpl.
      by rewrite decide_True.
Qed.

Lemma released_name_is_claimable_witness :
  ∃ s'' out',
    @step latin1 (UserJoin "B" " ALICE ")
      {| sockets := {["B"]};
         globals := {| connectedUsers := [("B", "bob")];
                       takenUsernames := {["bob"]} |} |}
      = Some (s'', out') ∧
    JSMap.get "B" (connectedUsers (globals s'')) = Some "ALICE" ∧
    inbox (sockets s'') out' "B" !! 0%nat = Some ("join-success", PString "ALICE").
Proof.
  assert (Hr : @reachable latin1 alice_and_bob).
  { exists two_users. vm_compute. reflexivity. }
  apply (@released_name_is_claimable latin1 alice_and_bob _ "A" "alice"
           (on_disconnect "A" (globals alice_and_bob)).2 "B" " ALICE " Hr eq_refl).
  - vm_compute. reflexivity.
  - compute_done.
  - discriminate.
  - reflexivity.
Defined.

(** *** Join and disconnect together *)

Lemma JSMap_delete_app (k : string) (m1 m2 : list (string * string)) :
  JSMap.delete k (m1 ++ m2) = JSMap.delete k m1 ++ JSMap.delete k m2.
Proof.
  induction m1 as [|[k0 v0] m1 IH]; simpl; [reflexivity|].
  destruct (decide (k = k0)); [assumption | by rewrite IH].
Qed.

Lemma JSMap_delete_set_fresh (k v : string) (m : list (string * string)) :
  JSMap.get k m = None → JSMap.delete k (JSMap.set k v m) = m.
Proof.
  intros Hg. rewrite JSMap_set_fresh, JSMap_delete_app by done.
  rewrite JSMap_delete_absent by done. simpl.
  rewrite decide_True by done. apply app_nil_r.
Qed.

(** X8. A socket without an entry joins under a free name and disconnects
    right away: the registry and the directory are back to what they were
    before the join, and the [user-left] event carries the name together
    with the user count and the user list from before the join. *)
Theorem join_then_disconnect_restores `{JSString} (sid username : string)
    (σ : State) :
  JSMap.get sid (connectedUsers σ) = None →
  trim username ≠ "" →
  (∀ name, name ∈ takenUsernames σ →
           toLowerCase name ≠ toLowerCase (trim username)) →
  (on_disconnect sid (on_user_join sid username σ).1).1 = σ ∧
  (on_disconnect sid (on_user_join sid username σ).1).2 !! 0%nat
    = Some (IoEmit "user-left"
              (PPresence (trim username)
                 (JSMap.size (connectedUsers σ))
                 (JSMap.values (connectedUsers σ)))).
Proof.
  intros Hg Hne Hfree.
  assert (trim username ∉ takenUsernames σ) as Hnew.
  { intros Hin. by apply (Hfree _ Hin). }
  rewrite on_user_join_accepted by (try apply isTaken_false; done).
  cbn [fst].
  rewrite (on_disconnect_registered sid (trim username)).
  2:{ project_state. rewrite JSMap_get_set, decide_True by done.
      by apply truthy_Some. }
  project_state. rewrite JSMap_delete_set_fresh by done.
  split; [|reflexivity].
  destruct σ as [users taken]. simpl in *. f_equal.
  apply set_eq. intros x.
  rewrite elem_of_difference, elem_of_union, elem_of_singleton.
  split; [tauto|]. intros Hx. split; [tauto|]. by intros ->.
Qed.

Lemma join_then_disconnect_restores_witness :
  (on_disconnect "C" (@on_user_join latin1 "C" " carol " (globals alice_and_bob)).1).1
    = globals alice_and_bob.
Proof.
  destruct (@join_then_disconnect_restores latin1 "C" " carol "
              (globals alice_and_bob)) as [Hback _].
  - reflexivity.
  - discriminate.
  - intros name Hin. apply elem_of_elements in Hin. vm_compute in Hin.
    apply elem_of_cons in Hin as [->|Hin]; [discriminate|].
    apply elem_of_cons in Hin as [->|Hin]; [discriminate|].
    inversion Hin.
  - exact Hback.
Defined.

(** X9. When a socket without an entry is accepted, the [user-joined] event
    lists the users in the order they joined, the newcomer last, and its
    count is the previous count plus one. *)
Theorem first_join_appends `{JSString} (sid username : string) (σ : State) :
  JSMap.get sid (connectedUsers σ) = None →
  trim username ≠ "" →
  (∀ name, name ∈ takenUsernames σ →
           toLowerCase name ≠ toLowerCase (trim username)) →
  (on_user_join sid username σ).2 !! 1%nat
    = Some (IoEmit "user-joined"
              (PPresence (trim username)
                 (S (JSMap.size (connectedUsers σ)))
                 (JSMap.values (connectedUsers σ) ++ [trim username]))).
Proof.
  intros Hg Hne Hfree.
  rewrite on_user_join_accepted by (try apply isTaken_false; done).
  cbn [snd lookup list_lookup]. rewrite JSMap_size_set_fresh by done.
  rewrite JSMap_set_fresh by done.
  unfold JSMap.values. by rewrite fmap_app.
Qed.

Lemma first_join_appends_witness :
  (@on_user_join latin1 "C" " carol " (globals alice_and_bob)).2 !! 1%nat
    = Some (IoEmit "user-joined" (PPresence "carol" 3 ["alice"; "bob"; "carol"])).
Proof.
  apply (@first_join_appends latin1 "C" " carol " (globals alice_and_bob)).
  - reflexivity.
  - discriminate.
  - intros name Hin. apply elem_of_elements in Hin. vm_compute in Hin.
    apply elem_of_cons in Hin as [->|Hin]; [discriminate|].
    apply elem_of_cons in Hin as [->|Hin]; [discriminate|].
    inversion Hin.
Defined.

Lemma filter_absent (x : string) (l : list string) :
  x ∉ l → filter (λ y, y ≠ x) l = l.
Proof.
  induction l as [|y l IH]; [reflexivity|].
  rewrite not_elem_of_cons. intros [Hne Hl].
  rewrite filter_cons_True by congruence. by rewrite IH.
Qed.

(** The names that stay when one entry of a registry with distinct keys and
    distinct names is deleted, in their order. *)
Lemma JSMap_values_delete (k v : string) (m : list (string * string)) :
  NoDup (JSMap.keys m) → NoDup (JSMap.values m) →
  JSMap.get k m = Some v →
  JSMap.values (JSMap.delete k m) = filter (λ x, x ≠ v) (JSMap.values m).
Proof.
  unfold JSMap.keys, JSMap.values.
  induction m as [|[k0 v0] m IH]; [discriminate|].
  rewrite !fmap_cons, !NoDup_cons. cbn [fst snd JSMap.get JSMap.delete].
  intros [Hk Hks] [Hv Hvs].
  destruct (decide (k = k0)) as [->|Hne].
  - intros [= ->]. rewrite filter_cons_False by auto.
    rewrite JSMap_delete_absent by (by apply JSMap_get_None).
    by rewrite filter_absent.
  - intros Hg. rewrite fmap_cons. cbn [snd].
    rewrite filter_cons_True.
    + by rewrite IH.
    + intros ->. apply Hv. by apply (JSMap_get_value k).
Qed.

Lemma consistent_values_NoDup `{JSString} (s : Server) :
  consistent s → NoDup (JSMap.values (connectedUsers (globals s))).
Proof.
  intros Hc. pose proof (keys_nodup s Hc) as Hnd.
  unfold JSMap.values. apply NoDup_fmap_2_strong.
  - intros [k1 v1] [k2 v2] H1 H2. cbn [snd]. intros <-.
    apply JSMap_elem_get in H1; [|done]. apply JSMap_elem_get in H2; [|done].
    destruct (decide (k1 = k2)) as [->|Hne]; [done|].
    by destruct (names_distinct s Hc k1 k2 v1 v1).
  - by apply (NoDup_fmap_1 fst).
Qed.

(** X10. When a registered socket disconnects, the user list of the
    [user-left] event is the user list from before with the departed name
    taken out, the other names in their order, and the count is one less. *)
Theorem disconnect_removes_one_name `{JSString} (s : Server) (sid name : string) :
  reachable s →
  JSMap.get sid (connectedUsers (globals s)) = Some name →
  (on_disconnect sid (globals s)).2 !! 0%nat
    = Some (IoEmit "user-left"
              (PPresence name
                 (pred (JSMap.size (connectedUsers (globals s))))
                 (filter (λ x, x ≠ name)
                    (JSMap.values (connectedUsers (globals s)))))).
Proof.
  intros Hc%reachable_consistent Hg.
  rewrite (on_disconnect_registered sid name) by (by apply truthy_registered).
  cbn [snd lookup list_lookup].
  rewrite (JSMap_values_delete sid name);
    [|apply Hc|by apply consistent_values_NoDup|done].
  rewrite <- (JSMap_size_delete sid (connectedUsers (globals s)));
    [done|apply Hc|congruence].
Qed.

Lemma disconnect_removes_one_name_witness :
  (on_disconnect "A" (globals alice_and_bob)).2 !! 0%nat
    = Some (IoEmit "user-left" (PPresence "alice" 1 ["bob"])).
Proof.
  assert (Hr : @reachable latin1 alice_and_bob).
  { exists two_users. vm_compute. reflexivity. }
  apply (@disconnect_removes_one_name latin1 alice_and_bob "A" "alice" Hr eq_refl).
Defined.

(** *** Chat messages *)

(** X11. The chat message of a registered socket reaches every connected
    socket, the ones that never joined included: each of them receives the
    [new-message] event once. *)
Theorem chat_message_reaches_every_socket `{JSString} (s : Server)
    (sid name message : string) (now : Z) (iso : string) (r : string) :
  reachable s →
  JSMap.get sid (connectedUsers (globals s)) = Some name →
  trim message ≠ "" →
  r ∈ sockets s →
  inbox (sockets s) (on_chat_message sid message now iso (globals s)).2 r
    = [("new-message",
        PMessage (pretty now +:+ "-" +:+ sid) name (trim message) iso)].
Proof.
  intros Hc%reachable_consistent Hg Hne Hr.
  unfold on_chat_message.
  rewrite (truthy_registered s sid name Hc Hg), decide_False by done.
  cbn [snd]. rewrite inbox_io_emit by done.
  by rewrite inbox_console, inbox_nil.
Qed.

Lemma chat_message_reaches_every_socket_witness :
  JSMap.get "C" (connectedUsers (globals with_guest)) = None ∧
  inbox (sockets with_guest)
    (@on_chat_message latin1 "A" " hi " 1700000000000 "2023-11-14T22:13:20.000Z"
       (globals with_guest)).2 "C"
  = [("new-message",
      PMessage "1700000000000-A" "alice" "hi" "2023-11-14T22:13:20.000Z")].
Proof.
  assert (Hr : @reachable latin1 with_guest).
  { exists (two_users ++ [Connection "C"]). vm_compute. reflexivity. }
  split; [reflexivity|].
  apply (@chat_message_reaches_every_socket latin1 with_guest "A" "alice" " hi "
           1700000000000%Z "2023-11-14T22:13:20.000Z" "C" Hr eq_refl).
  - discriminate.
  - compute_done.
Defined.

Lemma string_length_app (s1 s2 : string) :
  String.length (s1 +:+ s2) = String.length s1 + String.length s2.
Proof. induction s1 as [|c s1 IH]; simpl; [reflexivity | by rewrite IH]. Qed.

Lemma string_length_substring (m : nat) (s : string) :
  String.length (String.substring 0 m s) = m `min` String.length s.
Proof.
  revert s. induction m as [|m IH]; intros [|c s]; simpl; try reflexivity.
  by rewrite IH.
Qed.

(** X12. The line the server logs for a chat message shows the sender and at
    most the first 50 characters of the trimmed body: a body of up to 50
    characters is logged whole, a longer one is cut to 50 characters
    followed by three dots. *)
Theorem chat_message_log_is_truncated `{JSString} (sid username message : string)
    (now : Z) (iso : string) (σ : State) :
  truthy (JSMap.get sid (connectedUsers σ)) = Some username →
  trim message ≠ "" →
  ∃ shown,
    (on_chat_message sid message now iso σ).2 !! 1%nat
      = Some (ConsoleLog ("[MESSAGE] " +:+ username +:+ ": " +:+ shown)) ∧
    String.length shown ≤ 53 ∧
    (String.length (trim message) ≤ 50 → shown = trim message) ∧
    (50 < String.length (trim message) →
       shown = String.substring 0 50 (trim message) +:+ "..." ∧
       String.length shown = 53).
Proof.
  intros Ht Hne. unfold on_chat_message. rewrite Ht, decide_False by done.
  eexists. split; [reflexivity|].
  destruct (decide (50 < String.length (trim message))) as [Hlong|Hshort].
  - rewrite string_length_app, string_length_substring.
    change (String.length "...") with 3.
    split; [lia|]. split; [lia|]. intros _. split; [reflexivity | lia].
  - split; [lia|]. split; [done | lia].
Qed.

Lemma chat_message_log_is_truncated_witness :
  ∃ shown,
    (@on_chat_message latin1 "A"
       "0123456789012345678901234567890123456789012345678901234567890123456789"
       1700000000000 "2023-11-14T22:13:20.000Z" (globals alice_and_bob)).2 !! 1%nat
      = Some (ConsoleLog ("[MESSAGE] " +:+ "alice" +:+ ": " +:+ shown)) ∧
    String.length shown ≤ 53.
Proof.
  destruct (@chat_message_log_is_truncated latin1 "A" "alice"
              "0123456789012345678901234567890123456789012345678901234567890123456789"
              1700000000000%Z "2023-11-14T22:13:20.000Z" (globals alice_and_bob))
    as (shown & Hlog & Hlen & _).
  - reflexivity.
  - discriminate.
  - exists shown. split; [exact Hlog | exact Hlen].
Defined.


(** *** Message ids *)

Lemma dashless_pretty_N_go (x : N) (s : string) :
  dashless s = true → dashless (pretty_N_go x s) = true.
Proof.
  revert s. induction (N.lt_wf_0 x) as [x _ IH]; intros s Hs.
  assert (x = 0 ∨ 0 < x)%N as [->|Hpos] by lia.
  - by rewrite pretty_N_go_0.
  - rewrite pretty_N_go_step by done. apply IH; [by apply N.div_lt|].
    simpl. rewrite Hs. unfold pretty_N_char. by repeat case_match.
Qed.

Lemma nonempty_pretty_N_go (x : N) (s : string) :
  s ≠ "" → pretty_N_go x s ≠ "".
Proof.
  revert s. induction (N.lt_wf_0 x) as [x _ IH]; intros s Hs.
  assert (x = 0 ∨ 0 < x)%N as [->|Hpos] by lia.
  - by rewrite pretty_N_go_0.
  - rewrite pretty_N_go_step by done. by apply IH; [apply N.div_lt|].
Qed.

Lemma pretty_N_digits (x : N) : dashless (pretty x) = true ∧ pretty x ≠ "".
Proof.
  unfold pretty, pretty_N. destruct (decide (x = 0%N)) as [->|Hx]; [done|].
  split; [by apply dashless_pretty_N_go|].
  rewrite pretty_N_go_step by lia. by apply nonempty_pretty_N_go.
Qed.

(** A numeral, a dash and a rest: the numeral and the rest can be read back. *)
Lemma dashless_prefix_inj (u v s t : string) :
  dashless u = true → dashless v = true →
  u +:+ String "-" s = v +:+ String "-" t → u = v ∧ s = t.
Proof.
  revert v. induction u as [|c u IH]; intros [|d v]; simpl.
  - by intros _ _ [= ->].
  - intros _ Hd [= <- _]. done.
  - intros Hc _ [= -> _]. done.
  - intros [_ Hu]%andb_true_iff [_ Hv]%andb_true_iff [= -> Heq].
    by destruct (IH v Hu Hv Heq) as [-> ->].
Qed.

Lemma message_id_inj (now1 now2 : Z) (sid1 sid2 : string) :
  pretty now1 +:+ "-" +:+ sid1 = pretty now2 +:+ "-" +:+ sid2 →
  now1 = now2 ∧ sid1 = sid2.
Proof.
  assert (∀ z : Z, (0 ≤ z)%Z → dashless (pretty z) = true ∧ pretty z ≠ "")
    as Hnonneg.
  { intros [|p|p] Hz; [done| |lia]. apply (pretty_N_digits (Npos p)). }
  assert (∀ p s, pretty (Zneg p) +:+ s = String "-" (pretty (Npos p) +:+ s))
    as Hneg by done.
  assert (∀ z1 z2 s1 s2, (0 ≤ z1)%Z → (0 ≤ z2)%Z →
            pretty z1 +:+ "-" +:+ s1 = pretty z2 +:+ "-" +:+ s2 →
            z1 = z2 ∧ s1 = s2) as Hsame.
  { intros z1 z2 s1 s2 [H1 _]%Hnonneg [H2 _]%Hnonneg Heq.
    apply dashless_prefix_inj in Heq as [Hz ->]; [|done..].
    by apply (inj pretty) in Hz. }
  assert (∀ z p s1 s2, (0 ≤ z)%Z →
            pretty z +:+ "-" +:+ s1 ≠ pretty (Zneg p) +:+ "-" +:+ s2) as Hmixed.
  { intros z p s1 s2 [Hd Hne]%Hnonneg. rewrite Hneg.
    destruct (pretty z) as [|c u]; [done|]. simpl in *.
    intros [= -> _]. done. }
  assert (∀ p, (0 ≤ Z.pos p)%Z) as Hpos by lia.
  destruct now1 as [|p1|p1], now2 as [|p2|p2]; intros Heq.
  - by apply Hsame.
  - by apply Hsame.
  - by destruct (Hmixed 0%Z p2 sid1 sid2).
  - by apply Hsame.
  - by apply Hsame.
  - by destruct (Hmixed (Z.pos p1) p2 sid1 sid2).
  - by destruct (Hmixed 0%Z p1 sid2 sid1).
  - by destruct (Hmixed (Z.pos p2) p1 sid2 sid1).
  - rewrite !Hneg in Heq. injection Heq as Heq.
    apply dashless_prefix_inj in Heq as [Hp ->];
      [|apply (pretty_N_digits (Npos _))..].
    apply (inj pretty) in Hp. split; [congruence | done].
Qed.

(** X13. The id of a [new-message] event determines the sender's socket and
    the value of [Date.now()] it was made from: two chat messages whose
    events carry the same id were sent on the same socket and in the same
    millisecond, also when socket ids contain dashes. *)
Theorem message_id_determines_origin `{JSString}
    (sid1 sid2 message1 message2 : string) (now1 now2 : Z) (iso1 iso2 : string)
    (σ1 σ2 : State) (id : string)
    (username1 body1 timestamp1 username2 body2 timestamp2 : string) :
  (on_chat_message sid1 message1 now1 iso1 σ1).2 !! 0%nat
    = Some (IoEmit "new-message" (PMessage id username1 body1 timestamp1)) →
  (on_chat_message sid2 message2 now2 iso2 σ2).2 !! 0%nat
    = Some (IoEmit "new-message" (PMessage id username2 body2 timestamp2)) →
  sid1 = sid2 ∧ now1 = now2.
Proof.
  unfold on_chat_message.
  destruct (truthy (JSMap.get sid1 _)); [|discriminate].
  destruct (decide (trim message1 = "")); [discriminate|].
  destruct (truthy (JSMap.get sid2 _)); [|discriminate].
  destruct (decide (trim message2 = "")); [discriminate|].
  cbn [snd lookup list_lookup]. intros [= <- _ _ _] [= Hid _ _ _].
  apply message_id_inj in Hid as [-> ->]. done.
Qed.

Lemma message_id_determines_origin_witness :
  "A" = "A" ∧ 1700000000000%Z = 1700000000000%Z.
Proof.
  apply (@message_id_determines_origin latin1 "A" "A" "hi" "again"
           1700000000000%Z 1700000000000%Z
           "2023-11-14T22:13:20.000Z" "2023-11-14T22:13:20.000Z"
           (globals alice_and_bob) (globals alice_and_bob)
           "1700000000000-A"
           "alice" "hi" "2023-11-14T22:13:20.000Z"
           "alice" "again" "2023-11-14T22:13:20.000Z").
  - reflexivity.
  - reflexivity.
Defined.

(** ** The client *)

(** *** Login *)

(** X14. When [handleLogin] sends a join request, the name it sends is the
    trimmed input and has between 2 and 20 characters.  Provided trimming it
    again changes nothing, the server never answers such a request with the
    empty-name error: it refuses the name as taken when the directory has it
    up to case, and otherwise registers the socket under exactly the name
    the client sent and confirms it with [join-success]. *)
Theorem login_name_passes_server_check `{JSString} (f f' : LoginForm)
    (username sid : string) (σ : State) :
  handleLogin f = (f', [Emit "user-join" (Some username)]) →
  trim (trim (usernameInput f)) = trim (usernameInput f) →
  username = trim (usernameInput f) ∧
  2 ≤ String.length username ≤ 20 ∧
  joinDisabled f' = true ∧
  ((∃ name, name ∈ takenUsernames σ ∧ toLowerCase name = toLowerCase username) →
   on_user_join sid username σ =
     (σ, [SocketEmit sid "join-error"
            (PString "Username is already taken. Please choose another.")])) ∧
  ((∀ name, name ∈ takenUsernames σ → toLowerCase name ≠ toLowerCase username) →
   JSMap.get sid (connectedUsers (on_user_join sid username σ).1) = Some username ∧
   (on_user_join sid username σ).2 !! 0%nat
     = Some (SocketEmit sid "join-success" (PString username))).
Proof.
  unfold handleLogin. intros Hlogin Hidem.
  destruct (decide (trim (usernameInput f) = "")) as [|Hne]; [discriminate|].
  destruct (decide (String.length (trim (usernameInput f)) < 2)) as [|Hmin];
    [discriminate|].
  destruct (decide (20 < String.length (trim (usernameInput f)))) as [|Hmax];
    [discriminate|].
  injection Hlogin as <- <-. cbn [joinDisabled].
  split; [done|]. split; [lia|]. split; [done|].
  assert (trim (trim (usernameInput f)) ≠ "") as Hne' by congruence.
  split.
  - intros Ht. apply on_user_join_taken; [done|].
    apply isTaken_true. by rewrite Hidem.
  - intros Hfree.
    rewrite on_user_join_accepted
      by (try apply isTaken_false; rewrite ?Hidem; done).
    project_state. rewrite JSMap_get_set, decide_True by done.
    by rewrite Hidem.
Qed.

Lemma login_name_passes_server_check_witness :
  JSMap.get "C"
    (connectedUsers (@on_user_join latin1 "C" "carol" (globals alice_and_bob)).1)
  = Some "carol".
Proof.
  destruct (@login_name_passes_server_check latin1
              {| usernameInput := "  carol "; loginError := "";
                 joinDisabled := false; joinLabel := "Join Chat" |}
              {| usernameInput := "  carol "; loginError := "";
                 joinDisabled := true; joinLabel := "Joining..." |}
              "carol" "C" (globals alice_and_bob))
    as (_ & _ & _ & _ & Hok).
  - reflexivity.
  - reflexivity.
  - apply Hok. intros name Hin. apply elem_of_elements in Hin. vm_compute in Hin.
    apply elem_of_cons in Hin as [->|Hin]; [discriminate|].
    apply elem_of_cons in Hin as [->|Hin]; [discriminate|].
    inversion Hin.
Defined.

(** *** The typing indicator *)

Lemma typing_alternates_app (on : bool) (out1 out2 : list ClientEmit) :
  typing_alternates on (out1 ++ out2)
  = typing_alternates on out1 && typing_alternates (typing_after on out1) out2.
Proof.
  revert on. induction out1 as [|[event arg] out1 IH]; intros on; simpl;
    [reflexivity|].
  destruct (decide (event = "typing")); [by rewrite IH, andb_assoc|].
  destruct (decide (event = "stop-typing")); apply IH.
Qed.

Lemma typing_after_app (on : bool) (out1 out2 : list ClientEmit) :
  typing_after on (out1 ++ out2) = typing_after (typing_after on out1) out2.
Proof.
  revert on. induction out1 as [|[event arg] out1 IH]; intros on; simpl;
    [reflexivity|].
  destruct (decide (event = "typing")); [apply IH|].
  destruct (decide (event = "stop-typing")); apply IH.
Qed.

(** Each listener emits in turn, and leaves [state.isTyping] telling whether
    the indicator is on. *)
Lemma composer_step_alternates `{JSString} (e : ComposerEvent) (c c' : Composer)
    (out : list ClientEmit) :
  composer_step e c = Some (c', out) →
  typing_alternates (isTyping c) out = true ∧
  typing_after (isTyping c) out = isTyping c'.
Proof.
  destruct e as [value| |id]; simpl.
  - intros [= <- <-]. simpl. by destruct (isTyping c).
  - unfold handleSendMessage.
    destruct (decide (trim (messageInput c) = "")); intros [= <- <-]; [done|].
    simpl. by destruct (isTyping c).
  - destruct (decide (id ∈ timers c)); [|discriminate].
    by intros [= <- <-].
Qed.

Lemma composer_run_alternates `{JSString} (tr : list ComposerEvent)
    (c c' : Composer) (out : list ClientEmit) :
  composer_run tr c = Some (c', out) →
  typing_alternates (isTyping c) out = true ∧
  typing_after (isTyping c) out = isTyping c'.
Proof.
  revert c out. induction tr as [|e tr IH]; intros c out; simpl.
  - by intros [= <- <-].
  - destruct (composer_step e c) as [[c1 out1]|] eqn:Hstep; [|discriminate].
    destruct (composer_run tr c1) as [[c2 out2]|] eqn:Hrun; [|discriminate].
    intros [= <- <-].
    apply composer_step_alternates in Hstep as [Ha1 Hb1].
    apply IH in Hrun as [Ha2 Hb2].
    rewrite typing_alternates_app, typing_after_app, Ha1, Hb1. by split.
Qed.

(** X15. Whatever the user does with the message box, the client never
    sends [typing] twice without a [stop-typing] in between, and
    [state.isTyping] holds exactly when the last of the two it sent is
    [typing]. *)
Theorem typing_emissions_alternate `{JSString} (tr : list ComposerEvent)
    (c : Composer) (out : list ClientEmit) :
  composer_run tr composer_init = Some (c, out) →
  typing_alternates false out = true ∧
  typing_after false out = isTyping c.
Proof. apply composer_run_alternates. Qed.

Lemma typing_emissions_alternate_witness :
  typing_alternates false
    [Emit "typing" None; Emit "chat-message" (Some "hi");
     Emit "stop-typing" None; Emit "stop-typing" None] = true.
Proof.
  apply (@typing_emissions_alternate latin1
           [Input "h"; Input "hi"; Submit; Timeout 2]
           {| messageInput := ""; isTyping := false; typingTimeout := Some 2;
              timers := ∅; nextTimer := 3 |}).
  vm_compute. reflexivity.
Defined.

Lemma timers_ok_init : timers_ok composer_init.
Proof.
  split; simpl; [|done|lia|done].
  intros id Hin. by apply not_elem_of_empty in Hin.
Qed.

Lemma timers_ok_step `{JSString} (e : ComposerEvent) (c c' : Composer)
    (out : list ClientEmit) :
  timers_ok c → composer_step e c = Some (c', out) → timers_ok c'.
Proof.
  intros [Hlast Hpos Hnext Htyping]. destruct e as [value| |id]; simpl.
  - intros [= <- _]. unfold handleTyping, clearTypingTimeout. simpl.
    assert (∀ id, id ∈ match typingTimeout c with
                       | Some id0 =>
                           if decide (id0 = 0) then timers c
                           else timers c ∖ {[id0]}
                       | None => timers c
                       end → False) as Hcleared.
    { intros id. destruct (typingTimeout c) as [id0|] eqn:Hid.
      - destruct (decide (id0 = 0)) as [->|Hne].
        + pose proof (Hpos 0 eq_refl). lia.
        + intros [Hin Hother]%elem_of_difference. apply Hother.
          apply elem_of_singleton. apply Hlast in Hin. congruence.
      - intros Hin. by apply Hlast in Hin. }
    split; simpl.
    + intros id [->%elem_of_singleton|Hin]%elem_of_union; [done|].
      by destruct (Hcleared id).
    + by intros id [= <-].
    + lia.
    + intros _. exists (nextTimer c). split; [done|].
      apply elem_of_union_l. by apply elem_of_singleton.
  - unfold handleSendMessage.
    destruct (decide (trim (messageInput c) = "")); intros [= <- _];
      [by split|].
    split; simpl; done.
  - destruct (decide (id ∈ timers c)); [|discriminate].
    intros [= <- _]. split; simpl; [|done..].
    intros id' [Hin _]%elem_of_difference. by apply Hlast.
Qed.

Lemma composer_run_timers_ok `{JSString} (tr : list ComposerEvent)
    (c c' : Composer) (out : list ClientEmit) :
  timers_ok c → composer_run tr c = Some (c', out) → timers_ok c'.
Proof.
  revert c out. induction tr as [|e tr IH]; intros c out Hc; simpl.
  - by intros [= <- _].
  - destruct (composer_step e c) as [[c1 out1]|] eqn:Hstep; [|discriminate].
    destruct (composer_run tr c1) as [[c2 out2]|] eqn:Hrun; [|discriminate].
    intros [= <- _]. eapply IH; [|exact Hrun]. by eapply timers_ok_step.
Qed.

(** X16. In every state of the message box at most one timer is set, and
    whenever [state.isTyping] holds one is: when it fires, the client sends
    [stop-typing], clears the flag, and no timer is left.  The typing
    indicator cannot stay on for good. *)
Theorem typing_flag_has_a_timer `{JSString} (tr : list ComposerEvent)
    (c : Composer) (out : list ClientEmit) :
  composer_run tr composer_init = Some (c, out) →
  size (timers c) ≤ 1 ∧
  (isTyping c = true →
   ∃ id c',
     composer_step (Timeout id) c = Some (c', [Emit "stop-typing" None]) ∧
     isTyping c' = false ∧
     timers c' = ∅).
Proof.
  intros Hrun.
  destruct (composer_run_timers_ok tr composer_init c out timers_ok_init Hrun)
    as [Hlast Hpos Hnext Htyping].
  assert (∀ id, id ∈ timers c → timers c = {[id]}) as Hone.
  { intros id Hin. apply set_eq. intros x. rewrite elem_of_singleton. split.
    - intros Hx. apply Hlast in Hx. apply Hlast in Hin. congruence.
    - by intros ->. }
  split.
  - destruct (decide (timers c = ∅)) as [->|Hne]; [by rewrite size_empty; lia|].
    apply set_choose_L in Hne as [id Hin].
    rewrite (Hone id Hin), size_singleton. lia.
  - intros [id [Hid Hin]]%Htyping. eexists id, _. simpl.
    rewrite decide_True by done. split; [reflexivity|]. simpl.
    split; [done|]. rewrite (Hone id Hin). apply set_eq. intros x.
    rewrite elem_of_difference, elem_of_singleton. split; [tauto|].
    by intros ?%not_elem_of_empty.
Qed.

Lemma typing_flag_has_a_timer_witness :
  ∃ id c',
    @composer_step latin1 (Timeout id)
      {| messageInput := "hi"; isTyping := true; typingTimeout := Some 2;
         timers := {[2]}; nextTimer := 3 |}
      = Some (c', [Emit "stop-typing" None]) ∧
    isTyping c' = false ∧ timers c' = ∅.
Proof.
  destruct (@typing_flag_has_a_timer latin1 [Input "h"; Input "hi"]
              {| messageInput := "hi"; isTyping := true; typingTimeout := Some 2;
                 timers := {[2]}; nextTimer := 3 |}
              [Emit "typing" None]) as [_ Hfire].
  - vm_compute. reflexivity.
  - apply Hfire. reflexivity.
Defined.

(** X17. Sending a message does not clear the timer of the typing
    indicator.  When a message is sent while [state.isTyping] holds, the
    client sends the message and [stop-typing], and the timer that is still
    set makes it send [stop-typing] a second time when it fires. *)
Theorem send_while_typing_stops_twice `{JSString} (tr : list ComposerEvent)
    (c : Composer) (out : list ClientEmit) :
  composer_run tr composer_init = Some (c, out) →
  isTyping c = true →
  trim (messageInput c) ≠ "" →
  ∃ id c',
    composer_run [Submit; Timeout id] c
      = Some (c', [Emit "chat-message" (Some (trim (messageInput c)));
                   Emit "stop-typing" None;
                   Emit "stop-typing" None]) ∧
    isTyping c' = false.
Proof.
  intros Hrun Ht Hne.
  destruct (composer_run_timers_ok tr composer_init c out timers_ok_init Hrun)
    as [_ _ _ Htyping].
  destruct (Htyping Ht) as (id & _ & Hin).
  exists id. eexists. simpl. unfold handleSendMessage.
  rewrite decide_False by done. rewrite Ht. simpl.
  rewrite decide_True by done. simpl. split; reflexivity.
Qed.

Lemma send_while_typing_stops_twice_witness :
  ∃ id c',
    @composer_run latin1 [Submit; Timeout id]
      {| messageInput := "hi"; isTyping := true; typingTimeout := Some 2;
         timers := {[2]}; nextTimer := 3 |}
      = Some (c', [Emit "chat-message" (Some "hi");
                   Emit "stop-typing" None;
                   Emit "stop-typing" None]) ∧
    isTyping c' = false.
Proof.
  apply (@send_while_typing_stops_twice latin1 [Input "h"; Input "hi"]
           {| messageInput := "hi"; isTyping := true; typingTimeout := Some 2;
              timers := {[2]}; nextTimer := 3 |}
           [Emit "typing" None]).
  - vm_compute. reflexivity.
  - reflexivity.
  - discriminate.
Defined.

(** X18. A message the client sends from the message box is the trimmed
    text of the box and is not empty.  Provided trimming it again changes
    nothing, the server does not drop it: when the sending socket is
    registered, every connected socket receives the [new-message] event
    with that text as its body. *)
Theorem sent_message_is_delivered `{JSString} (c c' : Composer)
    (message : string) (rest : list ClientEmit)
    (s : Server) (sid name : string) (now : Z) (iso : string) (r : string) :
  handleSendMessage c = (c', Emit "chat-message" (Some message) :: rest) →
  trim (trim (messageInput c)) = trim (messageInput c) →
  reachable s →
  JSMap.get sid (connectedUsers (globals s)) = Some name →
  r ∈ sockets s →
  message = trim (messageInput c) ∧
  message ≠ "" ∧
  messageInput c' = "" ∧
  inbox (sockets s) (on_chat_message sid message now iso (globals s)).2 r
    = [("new-message",
        PMessage (pretty now +:+ "-" +:+ sid) name message iso)].
Proof.
  unfold handleSendMessage. intros Hsend Hidem Hr Hg Hin.
  destruct (decide (trim (messageInput c) = "")) as [|Hne]; [discriminate|].
  injection Hsend as <- <- _. cbn [messageInput].
  split; [done|]. split; [done|]. split; [done|].
  pose proof (reachable_consistent s Hr) as Hc.
  unfold on_chat_message.
  rewrite (truthy_registered s sid name Hc Hg), Hidem, decide_False by done.
  cbn [snd]. rewrite inbox_io_emit by done.
  by rewrite inbox_console, inbox_nil.
Qed.

Lemma sent_message_is_delivered_witness :
  inbox (sockets with_guest)
    (@on_chat_message latin1 "A" "hi" 1700000000000 "2023-11-14T22:13:20.000Z"
       (globals with_guest)).2 "B"
  = [("new-message",
      PMessage "1700000000000-A" "alice" "hi" "2023-11-14T22:13:20.000Z")].
Proof.
  assert (Hr : @reachable latin1 with_guest).
  { exists (two_users ++ [Connection "C"]). vm_compute. reflexivity. }
  assert (Hin : "B" ∈ sockets with_guest) by compute_done.
  destruct (@sent_message_is_delivered latin1
              {| messageInput := " hi "; isTyping := true; typingTimeout := Some 2;
                 timers := {[2]}; nextTimer := 3 |}
              {| messageInput := ""; isTyping := false; typingTimeout := Some 2;
                 timers := {[2]}; nextTimer := 3 |}
              "hi" [Emit "stop-typing" None]
              with_guest "A" "alice" 1700000000000%Z "2023-11-14T22:13:20.000Z" "B"
              eq_refl eq_refl Hr eq_refl Hin)
    as (_ & _ & _ & Hbox).
  exact Hbox.
Defined.

(** *** Avatar colours *)

Lemma toInt32_range (z : Z) : (- 2 ^ 31 ≤ toInt32 z < 2 ^ 31)%Z.
Proof.
  unfold toInt32. pose proof (Z.mod_pos_bound (z + 2 ^ 31) (2 ^ 32)). lia.
Qed.

(** X19. For every username [getUserColor] returns a colour of the form
    [hsl(h, 70%, 60%)] whose hue [h] is a whole number from 0 to 359. *)
Theorem getUserColor_hue_in_range (username : string) :
  ∃ hue : Z,
    getUserColor username = "hsl(" +:+ pretty hue +:+ ", 70%, 60%)" ∧
    (0 ≤ hue < 360)%Z.
Proof.
  exists (userHue (charCodes username)). split; [reflexivity|].
  unfold userHue.
  pose proof (Z.rem_bound_abs (userHash (charCodes username)) 360). lia.
Qed.

Lemma userHash_snoc (codes : list Z) (c : Z) :
  userHash (codes ++ [c]) = hashStep (userHash codes) c.
Proof. unfold userHash. by rewrite fold_left_app. Qed.

Lemma userHash_bound (codes : list Z) :
  Forall (λ c, 0 ≤ c < 65536)%Z codes →
  (Z.abs (userHash codes) ≤ Z.of_nat (length codes) * (2 ^ 31 + 65535))%Z.
Proof.
  induction codes as [|c codes IH] using rev_ind.
  { intros _. change (userHash []) with 0%Z. cbn [length]. lia. }
  intros [Hcodes Hc]%Forall_app. apply Forall_cons_1 in Hc as [Hc _].
  rewrite userHash_snoc, length_app. unfold hashStep, shl5.
  pose proof (toInt32_range (userHash codes * 32)).
  specialize (IH Hcodes). cbn [length]. lia.
Qed.

(** X20. The hash of [getUserColor] stays within the integers a JavaScript
    number holds exactly: for a name of at most 2^21 code units its absolute
    value is below 2^53, at the end of the loop and after every turn of it. *)
Theorem userHash_is_exact (codes : list Z) (n : nat) :
  (Z.of_nat (length codes) ≤ 2 ^ 21)%Z →
  Forall (λ c, 0 ≤ c < 65536)%Z codes →
  (Z.abs (userHash (take n codes)) < 2 ^ 53)%Z.
Proof.
  intros Hlen Hcodes.
  pose proof (userHash_bound (take n codes) (Forall_take _ n _ Hcodes)) as Hb.
  assert (Z.of_nat (length (take n codes)) ≤ 2 ^ 21)%Z as Hz
    by (rewrite length_take; lia).
  nia.
Qed.

Lemma userHash_is_exact_witness :
  (Z.abs (userHash (take 5 (charCodes "alice"))) < 2 ^ 53)%Z.
Proof.
  apply (userHash_is_exact (charCodes "alice") 5).
  - vm_compute. discriminate.
  - repeat constructor; vm_compute; discriminate.
Defined.

(** ** The certificates of the HTTPS server *)

Lemma bool_decide_is_Some (o : option Entry) :
  bool_decide (is_Some o) = match o with Some _ => true | None => false end.
Proof.
  destruct o; [by apply bool_decide_eq_true_2 | apply bool_decide_eq_false_2].
  by intros [? ?].
Qed.

Ltac run_sync :=
  unfold getSSLCredentials, generateCertificate, existsSync, mkdirSync,
    readFileSync, writeFileSync, console_log, mbind, Sync_bind, mret, Sync_ret;
  unfold CERT_PATH, KEY_PATH, CERT_DIR, path_join in *;
  cbn [app stat dirname length pred take mkdirp disk console] in *;
  unfold path_join in *; cbn [app] in *;
  rewrite ?bool_decide_is_Some.

(** X21. When the certificate and the key are both on disk as regular
    files, [getSSLCredentials] returns their contents and leaves the disk as
    it is: nothing is generated, nothing is written. *)
Theorem complete_pair_is_loaded (w : World) (pems : Credentials)
    (certificate privateKey : string) :
  tree (disk w) →
  disk w !! CERT_PATH = Some (File certificate) →
  disk w !! KEY_PATH = Some (File privateKey) →
  getSSLCredentials pems w =
    Return {| cert := certificate; key := privateKey |}
      {| disk := disk w;
         console := console w ++ ["📜 Loading existing SSL certificates..."] |}.
Proof.
  intros Htree Hcert Hkey.
  assert (disk w !! CERT_DIR = Some Directory) as Hdir.
  { apply (Htree CERT_PATH). by rewrite Hcert. }
  run_sync.
  repeat (progress (rewrite ?bool_decide_is_Some, ?Hdir, ?Hcert, ?Hkey;
                    cbn [negb andb disk console])).
  reflexivity.
Qed.


Ltac sync_lookups :=
  repeat (progress
    (rewrite ?bool_decide_is_Some, ?lookup_insert_eq;
     rewrite ?lookup_insert_ne by discriminate;
     repeat match goal with
       | H : _ !! _ = _ |- _ => rewrite H
       end;
     cbn [negb andb disk console cert key])).

(** X22. When [certs] is missing or is a directory and the certificate or
    the key is missing, [getSSLCredentials] makes the directory if need be,
    writes both files and returns the new pair: a certificate or a key that
    was there alone is replaced. *)
Theorem incomplete_pair_is_replaced (w : World) (pems : Credentials) :
  (∀ content, disk w !! CERT_DIR ≠ Some (File content)) →
  disk w !! CERT_PATH ≠ Some Directory →
  disk w !! KEY_PATH ≠ Some Directory →
  disk w !! CERT_PATH = None ∨ disk w !! KEY_PATH = None →
  getSSLCredentials pems w =
    Return pems
      {| disk := <[KEY_PATH := File (key pems)]>
                   (<[CERT_PATH := File (cert pems)]>
                      (<[CERT_DIR := Directory]> (disk w)));
         console := console w ++
           ["🔐 Generating new self-signed SSL certificates...";
            "✅ SSL certificates generated and saved to ./certs/"] |}.
Proof.
  intros Hdir Hcert Hkey Hmissing.
  assert (disk w !! CERT_DIR = None ∨
          disk w !! CERT_DIR = Some Directory ∧
          <[CERT_DIR := Directory]> (disk w) = disk w) as Hd.
  { destruct (disk w !! CERT_DIR) as [[content|]|] eqn:Hd.
    - by destruct (Hdir content).
    - right. split; [done|]. by apply insert_id.
    - by left. }
  assert (∃ oc ok, disk w !! CERT_PATH = oc ∧ disk w !! KEY_PATH = ok ∧
            oc ≠ Some Directory ∧ ok ≠ Some Directory ∧
            (oc = None ∨ ok = None)) as (oc & ok & Hoc & Hok & Hc & Hk & Hm)
    by eauto 10.
  clear Hcert Hkey Hmissing Hdir.
  run_sync.
  destruct Hd as [Hd|[Hd Hid]];
    destruct oc as [[c|]|], ok as [[k|]|]; try done; try (by destruct Hm);
    sync_lookups; rewrite <- ?app_assoc, ?Hid; reflexivity.
Qed.

(** X23. Whatever [getSSLCredentials] returns, every later call returns
    again: after a call that succeeded, a second call loads the same
    certificate and key from the disk, whatever pair it could have
    generated, and does not change the disk.  The certificate is made once
    and reused by every later start of the server. *)
Theorem credentials_are_reused (w w' : World) (pems pems' credentials : Credentials) :
  getSSLCredentials pems w = Return credentials w' →
  getSSLCredentials pems' w' =
    Return credentials
      {| disk := disk w';
         console := console w' ++ ["📜 Loading existing SSL certificates..."] |}.
Proof.
  destruct pems as [c0 k0]. run_sync.
  destruct (disk w !! ["certs"]) as [[x|]|] eqn:Hd;
    destruct (disk w !! ["certs"; "cert.pem"]) as [[x1|]|] eqn:Hc;
    destruct (disk w !! ["certs"; "key.pem"]) as [[x2|]|] eqn:Hk;
    sync_lookups; try discriminate;
    intros [= <- <-]; sync_lookups; reflexivity.
Qed.

Lemma credentials_are_reused_witness :
  getSSLCredentials {| cert := "CERT2"; key := "KEY2" |}
    {| disk := {[ ["certs"] := Directory;
                  ["certs"; "cert.pem"] := File "CERT1";
                  ["certs"; "key.pem"] := File "KEY1" ]};
       console := ["🔐 Generating new self-signed SSL certificates...";
                   "✅ SSL certificates generated and saved to ./certs/"] |}
  = Return {| cert := "CERT1"; key := "KEY1" |}
      {| disk := {[ ["certs"] := Directory;
                    ["certs"; "cert.pem"] := File "CERT1";
                    ["certs"; "key.pem"] := File "KEY1" ]};
         console := ["🔐 Generating new self-signed SSL certificates...";
                     "✅ SSL certificates generated and saved to ./certs/";
                     "📜 Loading existing SSL certificates..."] |}.
Proof.
  assert (getSSLCredentials {| cert := "CERT1"; key := "KEY1" |}
            {| disk := ∅; console := [] |}
          = Return {| cert := "CERT1"; key := "KEY1" |}
              {| disk := {[ ["certs"] := Directory;
                            ["certs"; "cert.pem"] := File "CERT1";
                            ["certs"; "key.pem"] := File "KEY1" ]};
                 console := ["🔐 Generating new self-signed SSL certificates...";
                             "✅ SSL certificates generated and saved to ./certs/"] |})
    as Hfirst by (vm_compute; reflexivity).
  exact (credentials_are_reused _ _ _ {| cert := "CERT2"; key := "KEY2" |} _ Hfirst).
Defined.

(** X24. When [certs] is a regular file on a disk that is a tree,
    [getSSLCredentials] throws [ENOTDIR] at the first write: the HTTPS
    server does not start. *)
Theorem certs_as_file_throws (w : World) (pems : Credentials) (content : string) :
  tree (disk w) →
  disk w !! CERT_DIR = Some (File content) →
  getSSLCredentials pems w = Throw "ENOTDIR".
Proof.
  intros Htree Hdir.
  assert (disk w !! CERT_PATH = None) as Hcert.
  { destruct (disk w !! CERT_PATH) as [e|] eqn:He; [|done].
    assert (stat (disk w) (dirname CERT_PATH) = Some Directory) as Hp
      by (apply Htree; by rewrite He).
    unfold CERT_PATH, CERT_DIR, path_join in *.
    cbn [app dirname length pred take stat] in *. congruence. }
  run_sync. sync_lookups. reflexivity.
Qed.

Lemma tree_singleton_file :
  tree ({[ ["certs"] := File "x" ]} : gmap (list string) Entry).
Proof.
  intros p [e He]. apply lookup_singleton_Some in He as [<- _]. reflexivity.
Qed.

Lemma certs_as_file_throws_witness :
  getSSLCredentials {| cert := "CERT1"; key := "KEY1" |}
    {| disk := {[ ["certs"] := File "x" ]}; console := [] |}
  = Throw "ENOTDIR".
Proof.
  exact (certs_as_file_throws
           {| disk := {[ ["certs"] := File "x" ]}; console := [] |}
           {| cert := "CERT1"; key := "KEY1" |} "x"
           tree_singleton_file eq_refl).
Defined.

Lemma tree_complete_pair :
  tree ({[ ["certs"] := Directory;
           ["certs"; "cert.pem"] := File "CERT1";
           ["certs"; "key.pem"] := File "KEY1" ]} : gmap (list string) Entry).
Proof.
  intros p [e He].
  apply lookup_insert_Some in He as [[<- _]|[_ He]]; [reflexivity|].
  apply lookup_insert_Some in He as [[<- _]|[_ He]]; [reflexivity|].
  apply lookup_singleton_Some in He as [<- _]. reflexivity.
Qed.

Lemma complete_pair_is_loaded_witness :
  getSSLCredentials {| cert := "CERT2"; key := "KEY2" |}
    {| disk := {[ ["certs"] := Directory;
                  ["certs"; "cert.pem"] := File "CERT1";
                  ["certs"; "key.pem"] := File "KEY1" ]};
       console := [] |}
  = Return {| cert := "CERT1"; key := "KEY1" |}
      {| disk := {[ ["certs"] := Directory;
                    ["certs"; "cert.pem"] := File "CERT1";
                    ["certs"; "key.pem"] := File "KEY1" ]};
         console := ["📜 Loading existing SSL certificates..."] |}.
Proof.
  exact (complete_pair_is_loaded
           {| disk := {[ ["certs"] := Directory;
                         ["certs"; "cert.pem"] := File "CERT1";
                         ["certs"; "key.pem"] := File "KEY1" ]};
              console := [] |}
           {| cert := "CERT2"; key := "KEY2" |} "CERT1" "KEY1"
           tree_complete_pair eq_refl eq_refl).
Defined.

Lemma incomplete_pair_is_replaced_witness :
  getSSLCredentials {| cert := "CERT2"; key := "KEY2" |}
    {| disk := {[ ["certs"] := Directory;
                  ["certs"; "cert.pem"] := File "CERT1" ]};
       console := [] |}
  = Return {| cert := "CERT2"; key := "KEY2" |}
      {| disk := {[ ["certs"] := Directory;
                    ["certs"; "cert.pem"] := File "CERT2";
                    ["certs"; "key.pem"] := File "KEY2" ]};
         console := ["🔐 Generating new self-signed SSL certificates...";
                     "✅ SSL certificates generated and saved to ./certs/"] |}.
Proof.
  rewrite (incomplete_pair_is_replaced
             {| disk := {[ ["certs"] := Directory;
                           ["certs"; "cert.pem"] := File "CERT1" ]};
                console := [] |}).
  - vm_compute. reflexivity.
  - intros content. discriminate.
  - discriminate.
  - discriminate.
  - right. reflexivity.
Defined.
